(** * x-scraper: the resumable crawl engine

    A shallow embedding of the checkpoint store
    ([src/checkpoint_manager.py]), of the scroll loop and response
    listener ([src/playwright_scraper.py]) and of the orchestrator
    ([src/scraper.py]), with the properties of the design document that
    concern them; and of what the search sessions add: the retry
    decorator ([src/decorators.py]), the date ranges
    ([src/date_utils.py]) and the historical crawl ([cli/historical.py]).

    Conventions of the embedding.
    - A tweet is the dictionary built by [_extract_tweet_data]; the fields
      the modelled code reads are kept, with the types they have in a
      well-formed response.  Ids are ASCII strings, short
      enough for [int]; a missing id and the empty id are both falsy in
      the source and are both the empty string here.
    - The configuration is one whose entries parse.
    - A Python [dict] keeps insertion order: it is an association list
      whose update keeps the position of a key already present.
    - The browser is the environment: what the response listener extracts
      while the driver is suspended in an awaited call, what the page
      answers, and whether the call raises, are inputs of the model. *)

From Stdlib Require Import ZArith Lia Ascii String.
From stdpp Require Import base decidable option list gmap sets strings pretty sorting.

Open Scope string_scope.
Open Scope list_scope.
Open Scope Z_scope.

(** ** Data model *)

Record tweet := Tweet {
  id : string;
  text : string;
  created_at : string;
  lang : string;
  followers_count : Z;
  verified : bool;
  is_retweet : bool;
  is_reply : bool
}.

#[global] Instance tweet_eq_dec : EqDecision tweet.
Proof. solve_decision. Defined.

(** [if tweet_id:] on a string. *)
Definition truthy (s : string) : bool := bool_decide (s ≠ "").

(** A tweet that only carries an id and a text, for examples. *)
Definition mk (i t : string) : tweet :=
  Tweet i t "" "en" 0 false false false.

(** ** Python containers *)

Module Py.

(** An insertion-ordered dictionary from ids to tweets. *)
Definition dict := list (string * tweet).

(** [d[k] = v] *)
Fixpoint set (k : string) (v : tweet) (d : dict) : dict :=
  match d with
  | [] => [(k, v)]
  | (k', v') :: d' =>
      if decide (k' = k) then (k, v) :: d' else (k', v') :: set k v d'
  end.

(** [k in d] *)
Definition mem (k : string) (d : dict) : bool := bool_decide (k ∈ d.*1).

(** [d.get(k)] *)
Fixpoint get (k : string) (d : dict) : option tweet :=
  match d with
  | [] => None
  | (k', v') :: d' => if decide (k' = k) then Some v' else get k d'
  end.

(** [list(d.values())] *)
Definition values (d : dict) : list tweet := d.*2.

Definition is_digit_char (a : ascii) : bool :=
  let n := N_of_ascii a in ((48 <=? n) && (n <=? 57))%N.

Fixpoint all_digits (s : string) : bool :=
  match s with
  | EmptyString => true
  | String a s' => is_digit_char a && all_digits s'
  end.

(** [s.isdigit()] on an ASCII string: non-empty and decimal digits only. *)
Definition isdigit (s : string) : bool := truthy s && all_digits s.

Fixpoint int_acc (acc : N) (s : string) : N :=
  match s with
  | EmptyString => acc
  | String a s' => int_acc (10 * acc + (N_of_ascii a - 48))%N s'
  end.

(** [int(s)] for a string of decimal digits. *)
Definition int (s : string) : N := int_acc 0 s.

(** [sorted(l, key=key, reverse=True)]: a stable sort, larger keys first;
    items with equal keys keep their order. *)
Fixpoint insert_desc {A} (key : A → N) (x : A) (l : list A) : list A :=
  match l with
  | [] => [x]
  | y :: l' =>
      if (key x <? key y)%N then y :: insert_desc key x l' else x :: y :: l'
  end.

Definition sorted_desc {A} (key : A → N) (l : list A) : list A :=
  foldr (insert_desc key) [] l.

(** [sorted(l, key=key)]: stable, smaller keys first. *)
Fixpoint insert_asc {A} (key : A → N) (x : A) (l : list A) : list A :=
  match l with
  | [] => [x]
  | y :: l' =>
      if (key y <? key x)%N then y :: insert_asc key x l' else x :: y :: l'
  end.

Definition sorted_asc {A} (key : A → N) (l : list A) : list A :=
  foldr (insert_asc key) [] l.

End Py.

(** ** CheckpointManager *)

(** [lambda x: int(x.get('id', '0')) if x.get('id', '').isdigit() else 0] *)
Definition id_key (t : tweet) : N :=
  if Py.isdigit (id t) then Py.int (id t) else 0%N.

Module CheckpointManager.

(** One pass of [merge_tweets]'s loops: [all_tweets[tweet_id] = tweet]
    for every tweet with a truthy id. *)
Definition put (d : Py.dict) (t : tweet) : Py.dict :=
  if truthy (id t) then Py.set (id t) t d else d.

(** [merge_tweets(existing_tweets, new_tweets)]; the count of new ids is
    only logged. *)
Definition merge_tweets (existing_tweets new_tweets : list tweet) : list tweet :=
  let all_tweets := foldl put [] existing_tweets in
  let all_tweets := foldl put all_tweets new_tweets in
  Py.values all_tweets.

(** The first loop of [save_all_tweets]: the first tweet of an id wins. *)
Definition put_new (d : Py.dict) (t : tweet) : Py.dict :=
  if truthy (id t) && negb (Py.mem (id t) d) then Py.set (id t) t d else d.

(** [sorted_tweets] of [save_all_tweets]: what is written as the
    ['tweets'] of the archive file. *)
Definition sorted_tweets (all_tweets : list tweet) : list tweet :=
  let unique_tweets := foldl put_new [] all_tweets in
  Py.sorted_desc id_key (Py.values unique_tweets).

End CheckpointManager.

(** ** PlaywrightScraper *)

Module PlaywrightScraper.

(** The entries of [scraping_config] the scroll loop reads.  They come
    from [getint]: any integer. *)
Record config := Config {
  max_scroll_attempts : Z;
  max_attempts_without_new : Z;
  overlap_threshold : Z
}.

(** The one log line the properties below refer to:
    "Found overlap zone! Detected {overlap_count} existing tweets",
    "Clearing {len(self.all_tweets)} tweets (duplicates + recent)...". *)
Inductive log_line :=
| FoundOverlapZone (overlap_count : Z) (clearing : nat).

#[global] Instance log_line_eq_dec : EqDecision log_line.
Proof. solve_decision. Defined.

(** The fields of the scraper object the crawl engine uses.
    [existing_tweet_ids] is [None] until a session sets the attribute
    (the listener tests [hasattr]). *)
Record scraper := Scraper {
  page : bool;
  all_tweets : list tweet;
  scraped_tweet_ids : gset string;
  existing_tweet_ids : option (gset string);
  max_tweets_per_session : option Z;
  scroll_attempts_without_new : Z;
  log : list log_line
}.

(** The object after [__init__] and [initialize]. *)
Definition fresh_scraper : scraper :=
  Scraper true [] ∅ None None 0 [].

Definition len (s : scraper) : Z := Z.of_nat (length (all_tweets s)).

(** [self.all_tweets.append(parsed_tweet); self.scraped_tweet_ids.add(tweet_id)] *)
Definition append (t : tweet) (s : scraper) : scraper :=
  Scraper (page s) (all_tweets s ++ [t]) ({[id t]} ∪ scraped_tweet_ids s)
    (existing_tweet_ids s) (max_tweets_per_session s)
    (scroll_attempts_without_new s) (log s).

(** [self.all_tweets.clear(); self.scraped_tweet_ids.clear()] *)
Definition clear (s : scraper) : scraper :=
  Scraper (page s) [] ∅ (existing_tweet_ids s) (max_tweets_per_session s)
    (scroll_attempts_without_new s) (log s).

Definition set_without_new (n : Z) (s : scraper) : scraper :=
  Scraper (page s) (all_tweets s) (scraped_tweet_ids s) (existing_tweet_ids s)
    (max_tweets_per_session s) n (log s).

Definition info (m : log_line) (s : scraper) : scraper :=
  Scraper (page s) (all_tweets s) (scraped_tweet_ids s) (existing_tweet_ids s)
    (max_tweets_per_session s) (scroll_attempts_without_new s) (log s ++ [m]).

(** [not hasattr(self, 'existing_tweet_ids') or tweet_id not in self.existing_tweet_ids] *)
Definition not_existing (i : string) (s : scraper) : bool :=
  match existing_tweet_ids s with
  | None => true
  | Some e => bool_decide (i ∉ e)
  end.

(** What [_parse_tweets_from_timeline] and [_parse_single_tweet] do with
    one [parsed_tweet], the result of [_extract_tweet_data] ([None] when
    the extractor fails on the entry). *)
Definition collect (s : scraper) (parsed_tweet : option tweet) : scraper :=
  match parsed_tweet with
  | None => s
  | Some t =>
      if truthy (id t) then
        if bool_decide (id t ∉ scraped_tweet_ids s) then
          if not_existing (id t) s then append t s else s
        else s
      else s
  end.

(** The response listener over the entries of the responses that arrive
    while the driver is suspended. *)
Definition listen (entries : list (option tweet)) (s : scraper) : scraper :=
  foldl collect s entries.

(** An awaited browser call, seen from the driver: the entries the
    listener handles meanwhile, and whether the call raises. *)
Record awaited := Awaited {
  arrivals : list (option tweet);
  raised : option string
}.

Definition quiet : awaited := Awaited [] None.

(** What the browser does during one pass of the scroll loop. *)
Record scroll_event := ScrollEvent {
  on_scroll : awaited;      (* scrollBy, then the random sleep *)
  on_bottom : awaited;      (* the evaluation of the bottom test *)
  is_at_bottom : bool;
  on_refresh : awaited;     (* the refresh manoeuvre, every 100 passes *)
  over_600 : bool           (* time.time() - self.start_time > 600 *)
}.

(** Why the loop ended: the [while] guard, or one of its [break]s. *)
Inductive stop :=
| MaxScrollAttempts
| NoTweetsExtracted
| ResumePointNotFound
| NoNewTweets
| SessionLimit
| BottomOfTimeline
| TenMinutesNoTweets.

#[global] Instance stop_eq_dec : EqDecision stop.
Proof. solve_decision. Defined.

(** The local variables of [_scroll_timeline] with the object. *)
Record loop := Loop {
  scroll_attempts : Z;
  resume_point_found : bool;
  self : scraper
}.

Inductive step :=
| Next (l : loop)
| Break (r : stop) (l : loop)
| Raise (e : string) (l : loop).

Definition opt_truthy (o : option string) : bool :=
  match o with Some s => truthy s | None => false end.

(** [self.max_tweets_per_session and len(self.all_tweets) >= self.max_tweets_per_session] *)
Definition limit_reached (s : scraper) : bool :=
  match max_tweets_per_session s with
  | Some m => bool_decide (m ≠ 0) && (m <=? len s)
  | None => false
  end.

(** [sum(1 for tweet in self.all_tweets if tweet.get('id') in existing_tweet_ids)] *)
Definition overlap_count (existing : gset string) (s : scraper) : Z :=
  Z.of_nat (length (filter (λ t, id t ∈ existing) (all_tweets s))).

Section Loop.
(** [existing] is the local [existing_tweet_ids] after
    [existing_tweet_ids = existing_tweet_ids or set()]. *)
Context (c : config) (resume_from_tweet_id : option string)
        (existing : gset string).

(** Lines 771-786: the resume-overlap check.  Returns
    [resume_point_found], [new_tweets] and the object. *)
Definition overlap_check (found : bool) (new_tweets : Z) (s : scraper)
  : bool * Z * scraper :=
  if opt_truthy resume_from_tweet_id && negb found
     && bool_decide (existing ≠ ∅) then
    let n := overlap_count existing s in
    if overlap_threshold c <=? n then
      let s := info (FoundOverlapZone n (length (all_tweets s))) s in
      (true, 0, set_without_new 0 (clear s))
    else (found, new_tweets, s)
  else (found, new_tweets, s).

(** Lines 788-811: the counter of passes without new tweets and the
    three [break]s of its [else] branch. *)
Definition progress_check (attempts : Z) (found : bool) (new_tweets : Z)
    (s : scraper) : option stop * scraper :=
  if 0 <? new_tweets then (None, set_without_new 0 s)
  else
    let s := set_without_new (scroll_attempts_without_new s + 1) s in
    if (20 <=? attempts) && (len s =? 0) then (Some NoTweetsExtracted, s)
    else if negb found && (100 <=? scroll_attempts_without_new s) then
      (Some ResumePointNotFound, s)
    else if found
            && (max_attempts_without_new c <=? scroll_attempts_without_new s) then
      (Some NoNewTweets, s)
    else (None, s).

(** Lines 819-849: after the session-limit test. *)
Definition tail_checks (attempts : Z) (found : bool) (ev : scroll_event)
    (s : scraper) : step :=
  let s := listen (arrivals (on_bottom ev)) s in
  match raised (on_bottom ev) with
  | Some e => Raise e (Loop attempts found s)
  | None =>
      if is_at_bottom ev && (10 <? scroll_attempts_without_new s) then
        Break BottomOfTimeline (Loop attempts found s)
      else
        let refresh := bool_decide (attempts `mod` 100 = 0) in
        let s := if refresh then listen (arrivals (on_refresh ev)) s else s in
        match (if refresh then raised (on_refresh ev) else None) with
        | Some e => Raise e (Loop attempts found s)
        | None =>
            if over_600 ev && (len s =? 0) then
              Break TenMinutesNoTweets (Loop attempts found s)
            else Next (Loop attempts found s)
        end
  end.

(** One pass of the [while] body. *)
Definition body (ev : scroll_event) (l : loop) : step :=
  let attempts := scroll_attempts l + 1 in
  let found := resume_point_found l in
  let tweets_before := len (self l) in
  let s := listen (arrivals (on_scroll ev)) (self l) in
  match raised (on_scroll ev) with
  | Some e => Raise e (Loop attempts found s)
  | None =>
      let tweets_after := len s in
      let new_tweets := tweets_after - tweets_before in
      let '(found, new_tweets, s) := overlap_check found new_tweets s in
      match progress_check attempts found new_tweets s with
      | (Some r, s) => Break r (Loop attempts found s)
      | (None, s) =>
          if found && limit_reached s then
            Break SessionLimit (Loop attempts found s)
          else tail_checks attempts found ev s
      end
  end.

(** [while scroll_attempts < self.max_scroll_attempts]: [passes] is the
    number of passes the guard still admits,
    [max_scroll_attempts - scroll_attempts]; the environment gives the
    event of each pass by its number. *)
Fixpoint while (passes : nat) (env : Z → scroll_event) (l : loop) : step :=
  match passes with
  | O => Break MaxScrollAttempts l
  | S passes' =>
      match body (env (scroll_attempts l + 1)) l with
      | Next l' => while passes' env l'
      | r => r
      end
  end.

(** [_scroll_timeline(resume_from_tweet_id, existing_tweet_ids)]; the
    result [Next] does not occur. *)
Definition _scroll_timeline (env : Z → scroll_event) (s : scraper) : step :=
  let found := negb (opt_truthy resume_from_tweet_id) in
  while (Z.to_nat (max_scroll_attempts c)) env
    (Loop 0 found (set_without_new 0 s)).

End Loop.

(** What the browser does during one [scrape_user_tweets]. *)
Record session_env := SessionEnv {
  on_goto : awaited;             (* page.goto and the sleep after it *)
  on_account_check : awaited;    (* query_selector; its errors are swallowed *)
  account_missing : bool;
  on_wait_for_tweets : awaited;  (* wait_for_selector; errors swallowed *)
  scrolls : Z → scroll_event
}.

(** The dictionary [scrape_user_tweets] returns; [user_data] and
    [elapsed_time] are left out. *)
Inductive scrape_result :=
| Scraped (username : string) (tweets : list tweet) (tweet_count : nat)
| ScrapeError (error : string) (tweets : list tweet).

Inductive outcome (A : Type) :=
| Returns (a : A)
| Raises (e : string).
Arguments Returns {A} a.
Arguments Raises {A} e.

(** The start of a session, lines 530-536 (and [_prepare_scraping_session]). *)
Definition prepare (max_tweets : option Z) (existing : option (gset string))
    (s : scraper) : scraper :=
  Scraper (page s) [] ∅ (Some (default ∅ existing)) max_tweets
    (scroll_attempts_without_new s) (log s).

(** [scrape_user_tweets]: the result and the object afterwards.  The
    returned ['tweets'] is the list object [self.all_tweets]. *)
Definition scrape_user_tweets (c : config) (env : session_env)
    (username : string) (resume_from_tweet_id : option string)
    (max_tweets : option Z) (existing : option (gset string))
    (s : scraper) : outcome scrape_result * scraper :=
  if negb (page s) then (Raises "Browser not initialized", s)
  else
    let s := prepare max_tweets existing s in
    let s := listen (arrivals (on_goto env)) s in
    match raised (on_goto env) with
    | Some e => (Returns (ScrapeError e (all_tweets s)), s)
    | None =>
        let s := listen (arrivals (on_account_check env)) s in
        if bool_decide (raised (on_account_check env) = None) && account_missing env
        then (Returns (ScrapeError "Account not found" []), s)
        else
          let s := listen (arrivals (on_wait_for_tweets env)) s in
          match _scroll_timeline c resume_from_tweet_id
                  (default ∅ (existing_tweet_ids s)) (scrolls env) s with
          | Raise e l => (Returns (ScrapeError e (all_tweets (self l))), self l)
          | Break _ l | Next l =>
              (Returns (Scraped username (all_tweets (self l))
                          (length (all_tweets (self l)))), self l)
          end
    end.

End PlaywrightScraper.

(** ** XScraper: the orchestrator *)

Module XScraper.
Import PlaywrightScraper.

(** [checkpoint.json] of one user ([username] and [last_updated], which
    [save_checkpoint] adds, are left out). *)
Record checkpoint := Checkpoint {
  total_tweets : nat;
  oldest_tweet_id : option string;
  oldest_tweet_date : option string;
  newest_tweet_id : option string;
  newest_tweet_date : option string;
  session_count : Z;
  last_session_tweets : nat
}.

(** [tweets_{username}.json] of one user. *)
Record archive := Archive {
  tweets : list tweet;
  tweet_count : nat;
  archive_session_count : Z;
  archive_oldest_tweet_date : option string
}.

(** The two files of the user's data directory.  [None]: the file is
    absent, or holds no complete JSON document; [load_checkpoint] and
    [load_existing_tweets] treat the two alike.  What a file holds is
    what the program wrote. *)
Record disk := Disk {
  checkpoint_file : option checkpoint;
  tweets_file : option archive
}.

(** The writes attempted, in the order of the calls. *)
Inductive disk_event :=
| CheckpointWritten (c : checkpoint)
| CheckpointWriteFailed
| ArchiveWritten (a : archive)
| ArchiveWriteFailed.

(** The state the orchestrator lives in: the disk, the writes attempted
    so far, [twitter_session.is_logged_in], and [self.playwright_scraper]
    ([None] until the first login creates the object). *)
Record world := World {
  files : disk;
  writes : list disk_event;
  logged_in : bool;
  browser : option scraper
}.

(** A file after [open(..., 'w')] and [json.dump] inside the [try] of a
    save function.  A failure is logged and swallowed: when [open]
    raises, the file is as it was; when the failure comes after [open]
    ([truncated]), the file has been emptied or cut short and is no longer
    a readable document. *)
Definition after_write {A : Type} (ok truncated : bool) (new : A)
    (old : option A) : option A :=
  if ok then Some new else if truncated then None else old.

(** [CheckpointManager.save_checkpoint].  [get_checkpoint_file] creates
    the user's directory before the [try]: when [mkdir] raises
    ([dir_error]), the exception leaves the function and nothing is
    written. *)
Definition save_checkpoint (dir_error : option string) (ok truncated : bool)
    (c : checkpoint) (w : world) : outcome unit * world :=
  match dir_error with
  | Some e => (Raises e, w)
  | None =>
      (Returns (),
       World (Disk (after_write ok truncated c (checkpoint_file (files w)))
                (tweets_file (files w)))
         (writes w ++ [if ok then CheckpointWritten c else CheckpointWriteFailed])
         (logged_in w) (browser w))
  end.

(** [CheckpointManager.save_all_tweets]: [get_tweets_file] creates
    nothing, and the rest is inside the [try]. *)
Definition save_all_tweets (ok truncated : bool) (all_tweets : list tweet)
    (c : checkpoint) (w : world) : world :=
  let sorted := CheckpointManager.sorted_tweets all_tweets in
  let a := Archive sorted (length sorted) (session_count c) (oldest_tweet_date c) in
  World (Disk (checkpoint_file (files w))
           (after_write ok truncated a (tweets_file (files w))))
    (writes w ++ [if ok then ArchiveWritten a else ArchiveWriteFailed])
    (logged_in w) (browser w).

(** [load_existing_tweets] *)
Definition load_existing_tweets (d : disk) : list tweet :=
  match tweets_file d with
  | Some a => tweets a
  | None => []
  end.

(** [get_filter_settings]; [language] is the list of allowed languages,
    empty when the setting is empty. *)
Record filter_settings := FilterSettings {
  min_followers : Z;
  verified_only : bool;
  exclude_retweets : bool;
  exclude_replies : bool;
  language : list string
}.

Definition passes (f : filter_settings) (t : tweet) : bool :=
  negb (followers_count t <? min_followers f)
  && negb (verified_only f && negb (verified t))
  && negb (exclude_retweets f && is_retweet t)
  && negb (exclude_replies f && is_reply t)
  && match language f with
     | [] => true
     | ls => bool_decide (lang t ∈ ls)
     end.

Definition _apply_filters (f : filter_settings) (ts : list tweet) : list tweet :=
  List.filter (passes f) ts.

Record settings := Settings {
  scraping : config;
  config_limit : Z;      (* scraping_settings['max_tweets_per_session'] *)
  filters : filter_settings
}.

(** What happens outside the program during one call. *)
Record run_env := RunEnv {
  browser_ok : bool;                (* [initialize()] starts the browser and opens a page *)
  login_ok : bool;                  (* [PlaywrightScraper.login()] *)
  load_dir_error : option string;   (* [mkdir] or [exists] under [load_checkpoint] raises *)
  load_tweets_error : option string; (* [exists] under [load_existing_tweets] raises *)
  session : session_env;
  save_dir_error : option string;   (* [mkdir] under [save_checkpoint] raises *)
  checkpoint_write_ok : bool;
  checkpoint_truncated : bool;      (* a failed write failed after [open] *)
  archive_write_ok : bool;
  archive_truncated : bool
}.

(** The value returned to the caller: the result dictionary (its
    ['analysis'] is left out), or the scraper's error dictionary. *)
Inductive result :=
| Result (username : string) (tweet_count : nat) (tweets : list tweet)
    (filtered_tweet_count : nat)
| Error (error : string) (tweets : list tweet).

(** Lines 310-327: the checkpoint of the merged list. *)
Definition make_checkpoint (previous : option checkpoint)
    (all_tweets new_tweets : list tweet) : checkpoint :=
  let sorted_by_id := Py.sorted_asc id_key all_tweets in
  let oldest_tweet := head sorted_by_id in
  let newest_tweet := last sorted_by_id in
  let session_number :=
    match previous with Some p => session_count p + 1 | None => 1 end in
  Checkpoint (length all_tweets)
    (id <$> oldest_tweet) (created_at <$> oldest_tweet)
    (id <$> newest_tweet) (created_at <$> newest_tweet)
    session_number (length new_tweets).

(** Lines 298-337: merge, then persist. *)
Definition merge_and_save (env : run_env) (previous : option checkpoint)
    (existing_tweets new_tweets : list tweet) (w : world)
  : outcome (list tweet) * world :=
  let all_tweets :=
    match existing_tweets with
    | [] => new_tweets
    | _ => CheckpointManager.merge_tweets existing_tweets new_tweets
    end in
  match all_tweets with
  | [] => (Returns all_tweets, w)
  | _ =>
      let checkpoint_data := make_checkpoint previous all_tweets new_tweets in
      match save_checkpoint (save_dir_error env) (checkpoint_write_ok env)
              (checkpoint_truncated env) checkpoint_data w with
      | (Raises e, w) => (Raises e, w)
      | (Returns _, w) =>
          let w := save_all_tweets (archive_write_ok env) (archive_truncated env)
                     all_tweets checkpoint_data w in
          (Returns all_tweets, w)
      end
  end.

(** The scraper object [__init__] makes, before [initialize]. *)
Definition new_scraper : scraper := Scraper false [] ∅ None None 0 [].

(** [XScraper.login], which catches every exception.  The first login
    creates the scraper, which stays also when [initialize] or the login
    fails; a later login goes through the scraper there is, raises inside
    when it has no page, and does not mark the session as logged in. *)
Definition login (browser_ok ok : bool) (w : world) : bool * world :=
  match browser w with
  | None =>
      if browser_ok then
        if ok then (true, World (files w) (writes w) true (Some fresh_scraper))
        else (false, World (files w) (writes w) (logged_in w) (Some fresh_scraper))
      else (false, World (files w) (writes w) (logged_in w) (Some new_scraper))
  | Some b =>
      if logged_in w then (true, w)
      else if page b then (ok, w)
      else (false, w)
  end.

Definition with_browser (s : scraper) (w : world) : world :=
  World (files w) (writes w) (logged_in w) (Some s).

(** Lines 286-368, once the scraper has returned [scrape_result]. *)
Definition after_scrape (cfg : settings) (env : run_env) (username : string)
    (checkpoint : option checkpoint) (existing_tweets : list tweet)
    (scrape_result : scrape_result) (w : world) : outcome result * world :=
  match scrape_result with
  | ScrapeError e ts => (Returns (Error e ts), w)
  | Scraped _ new_tweets _ =>
      match merge_and_save env checkpoint existing_tweets new_tweets w with
      | (Raises e, w) => (Raises e, w)
      | (Returns all_tweets, w) =>
          let filtered_tweets := _apply_filters (filters cfg) all_tweets in
          (Returns (Result username (length all_tweets) filtered_tweets
                      (length filtered_tweets)), w)
      end
  end.

(** [XScraper.scrape_user_tweets(username, resume=, max_tweets_per_session=)].
    On a resume [load_checkpoint] comes first, and with it the [mkdir] of
    [get_checkpoint_file] and the test [exists()], outside every [try];
    so is the test [exists()] of [load_existing_tweets] when there is a
    checkpoint. *)
Definition scrape_user_tweets (cfg : settings) (env : run_env)
    (username : string) (resume : bool) (max_tweets_per_session : option Z)
    (w : world) : outcome result * world :=
  let max_tweets_per_session :=
    match max_tweets_per_session with
    | Some m => Some m
    | None => if 0 <? config_limit cfg then Some (config_limit cfg) else None
    end in
  match (if resume then load_dir_error env else None) with
  | Some e => (Raises e, w)
  | None =>
      let checkpoint := if resume then checkpoint_file (files w) else None in
      match (match checkpoint with
             | Some _ => load_tweets_error env
             | None => None
             end) with
      | Some e => (Raises e, w)
      | None =>
          let existing_tweets :=
            match checkpoint with
            | Some _ => load_existing_tweets (files w)
            | None => []
            end in
          let resume_from_tweet_id := checkpoint ≫= oldest_tweet_id in
          let existing_tweet_ids : gset string :=
            list_to_set (List.filter truthy (id <$> existing_tweets)) in
          let '(ready, w) :=
            if bool_decide (browser w = None) || negb (logged_in w)
            then login (browser_ok env) (login_ok env) w else (true, w) in
          if negb ready then (Raises "Failed to login before scraping", w)
          else
            match browser w with
            | None => (Raises "Playwright scraper not initialized", w)
            | Some b =>
                match PlaywrightScraper.scrape_user_tweets (scraping cfg)
                        (session env) username resume_from_tweet_id
                        max_tweets_per_session (Some existing_tweet_ids) b with
                | (Raises e, b) => (Raises e, with_browser b w)
                | (Returns scrape_result, b) =>
                    after_scrape cfg env username checkpoint existing_tweets
                      scrape_result (with_browser b w)
                end
            end
      end
  end.

End XScraper.

(** ** Specification-level notions *)

(** The keys of a dictionary after [d[k] = ...]: a new key goes last. *)
Definition add_key (ks : list string) (k : string) : list string :=
  if decide (k ∈ ks) then ks else ks ++ [k].

(** The order in which a dictionary filled from [ids] lists its keys. *)
Definition insertion_order (ids : list string) : list string :=
  foldl add_key [] ids.

(** The mapping of the merge law, in the words of the design document:
    keyed by id, all existing items inserted first, then all new items
    inserted or overwriting. *)
Definition spec_insert (m : gmap string tweet) (t : tweet) : gmap string tweet :=
  <[id t := t]> m.

Definition spec_mapping (existing new : list tweet) : gmap string tweet :=
  foldl spec_insert (foldl spec_insert ∅ existing) new.

Definition has_id (t : tweet) : bool := truthy (id t).

(** Sorted by numeric id, descending. *)
Definition by_id_desc (l : list tweet) : Prop :=
  StronglySorted (λ a b, (id_key b ≤ id_key a)%N) l.

(** A dictionary as the code builds them: keyed by the id of its value,
    with truthy, pairwise different keys. *)
Definition keyed (d : Py.dict) : Prop :=
  Forall (λ kv, id kv.2 = kv.1 ∧ truthy kv.1 = true) d.

(** An archive: truthy, pairwise different ids. *)
Definition is_archive (l : list tweet) : Prop :=
  NoDup (id <$> l) ∧ Forall (λ t, truthy (id t) = true) l.

#[global] Instance is_archive_dec l : Decision (is_archive l).
Proof. unfold is_archive. apply _. Defined.

(** The merge law as the design document words it, at one input. *)
Definition merge_law_as_stated (existing new : list tweet) : Prop :=
  (∀ t, t ∈ CheckpointManager.merge_tweets existing new
        ↔ ∃ k, spec_mapping existing new !! k = Some t)
  ∧ by_id_desc (CheckpointManager.merge_tweets existing new).

(** The state of the scraper moves by four operations during a session:
    the listener handles an entry, the overlap check clears the buffer,
    the loop sets its counter, a line is logged. *)
Inductive reach (s0 : PlaywrightScraper.scraper) : PlaywrightScraper.scraper → Prop :=
| reach_refl : reach s0 s0
| reach_collect s o : reach s0 s → reach s0 (PlaywrightScraper.collect s o)
| reach_clear s : reach s0 s → reach s0 (PlaywrightScraper.clear s)
| reach_count s n : reach s0 s → reach s0 (PlaywrightScraper.set_without_new n s)
| reach_info s m : reach s0 s → reach s0 (PlaywrightScraper.info m s).

(** The states of a session: those reached from its start. *)
Definition in_session (s : PlaywrightScraper.scraper) : Prop :=
  ∃ s0 max_tweets existing,
    reach (PlaywrightScraper.prepare max_tweets existing s0) s.

(** The dedup set is the set of the ids in the buffer, and no id is in the
    buffer twice. *)
Definition consistent (s : PlaywrightScraper.scraper) : Prop :=
  PlaywrightScraper.scraped_tweet_ids s
    = list_to_set (id <$> PlaywrightScraper.all_tweets s)
  ∧ NoDup (id <$> PlaywrightScraper.all_tweets s).

(** No item of the buffer has an id of the existing set or no id. *)
Definition only_new (s : PlaywrightScraper.scraper) : Prop :=
  ∀ t, t ∈ PlaywrightScraper.all_tweets s →
    truthy (id t) = true
    ∧ ∀ e, PlaywrightScraper.existing_tweet_ids s = Some e → id t ∉ e.

(** The state in which a pass or the loop ends. *)
Definition final (r : PlaywrightScraper.step) : PlaywrightScraper.loop :=
  match r with
  | PlaywrightScraper.Next l
  | PlaywrightScraper.Break _ l
  | PlaywrightScraper.Raise _ l => l
  end.



(** ** Scenarios *)

(** The ids [from], [from + 1], ... as decimal strings. *)
Definition ids (from count : nat) : list string :=
  (λ n : nat, pretty n) <$> seq from count.

(** An entry from which the extractor builds the tweet of id [i]. *)
Definition item (i : string) : option tweet := Some (mk i "").

(** A pass during which these entries arrive after the scroll, and
    nothing else happens. *)
Definition pass (entries : list (option tweet)) : PlaywrightScraper.scroll_event :=
  PlaywrightScraper.ScrollEvent (PlaywrightScraper.Awaited entries None)
    PlaywrightScraper.quiet false PlaywrightScraper.quiet false.

(** The overlap scenario of the design document: threshold 5, existing
    ids 1..50; the feed shows the new items 51..60, then 49, 48, ..., 40
    one per pass, then nothing. *)
Definition overlap_config : PlaywrightScraper.config :=
  PlaywrightScraper.Config 5000 50 5.

Definition overlap_existing : gset string := list_to_set (ids 1 50).

Definition overlap_feed (n : Z) : PlaywrightScraper.scroll_event :=
  if n =? 1 then pass (item <$> ids 51 10)
  else if (2 <=? n) && (n <=? 11) then pass [item (pretty (51 - n))]
  else pass [].

Definition overlap_start : PlaywrightScraper.scraper :=
  PlaywrightScraper.prepare None (Some overlap_existing)
    PlaywrightScraper.fresh_scraper.

(** A resume over the archive 10, 20 with threshold 0: the feed shows
    nothing in the first pass and the item 30 in the second. *)
Definition late_config : PlaywrightScraper.config :=
  PlaywrightScraper.Config 2 50 0.

Definition late_existing : gset string := {[ "10"; "20" ]}.

Definition late_feed (n : Z) : PlaywrightScraper.scroll_event :=
  if n =? 2 then pass [item "30"] else pass [].

Definition late_session : PlaywrightScraper.session_env :=
  PlaywrightScraper.SessionEnv PlaywrightScraper.quiet PlaywrightScraper.quiet
    false PlaywrightScraper.quiet late_feed.

Definition late_start : PlaywrightScraper.scraper :=
  PlaywrightScraper.prepare None (Some late_existing)
    PlaywrightScraper.fresh_scraper.

(** Resume monotonicity as the design document words it: once the resume
    point is confirmed, the buffer (cleared at the confirmation) holds
    only items older than the oldest archived one. *)
Definition resume_monotonicity_as_stated (c : PlaywrightScraper.config)
    (oldest : string) (existing : gset string)
    (env : Z → PlaywrightScraper.scroll_event)
    (s : PlaywrightScraper.scraper) : Prop :=
  let l := final (PlaywrightScraper._scroll_timeline c (Some oldest) existing env s) in
  PlaywrightScraper.resume_point_found l = true →
  ∀ t, t ∈ PlaywrightScraper.all_tweets (PlaywrightScraper.self l) →
       (id_key t < Py.int oldest)%N.

(** A fresh session with a limit of 10 whose first response carries 12
    items. *)
Definition burst_feed (n : Z) : PlaywrightScraper.scroll_event :=
  if n =? 1 then pass (item <$> ids 1 12) else pass [].

Definition burst_start : PlaywrightScraper.scraper :=
  PlaywrightScraper.prepare (Some 10) None PlaywrightScraper.fresh_scraper.


(** A fresh crawl of a feed of three items, by a program that has not
    logged in yet and finds an empty data directory. *)
Definition default_settings : XScraper.settings :=
  XScraper.Settings overlap_config 800
    (XScraper.FilterSettings 0 false false false []).

Definition three_feed (n : Z) : PlaywrightScraper.scroll_event :=
  if n =? 1 then pass (item <$> ids 1 3) else pass [].

Definition three_session : PlaywrightScraper.session_env :=
  PlaywrightScraper.SessionEnv PlaywrightScraper.quiet PlaywrightScraper.quiet
    false PlaywrightScraper.quiet three_feed.

Definition fresh_world : XScraper.world :=
  XScraper.World (XScraper.Disk None None) [] false None.

Definition three_env (save_dir_error : option string)
    (checkpoint_ok archive_ok : bool) : XScraper.run_env :=
  XScraper.RunEnv true true None None three_session save_dir_error
    checkpoint_ok false archive_ok false.

Definition three_run (checkpoint_ok archive_ok : bool)
  : PlaywrightScraper.outcome XScraper.result * XScraper.world :=
  XScraper.scrape_user_tweets default_settings
    (three_env None checkpoint_ok archive_ok) "user" false None fresh_world.


(** A saved checkpoint describes data that is in the archive file. *)
Definition checkpoint_backed (d : XScraper.disk) : Prop :=
  match XScraper.checkpoint_file d with
  | Some c =>
      ∃ a, XScraper.tweets_file d = Some a
           ∧ XScraper.total_tweets c = length (XScraper.tweets a)
  | None => True
  end.


(** The list the orchestrator merges into: the archive on disk when the
    call resumes from a checkpoint. *)
Definition existing_of (resume : bool) (w : XScraper.world) : list tweet :=
  match (if resume then XScraper.checkpoint_file (XScraper.files w) else None) with
  | Some _ => XScraper.load_existing_tweets (XScraper.files w)
  | None => []
  end.

(** Lines 298-304: [all_tweets]. *)
Definition merged (existing_tweets new_tweets : list tweet) : list tweet :=
  match existing_tweets with
  | [] => new_tweets
  | _ => CheckpointManager.merge_tweets existing_tweets new_tweets
  end.

(** The session reports that the account does not exist: the navigation
    and the look for the notice succeed, and the notice is there. *)
Definition reports_missing (env : PlaywrightScraper.session_env) : bool :=
  bool_decide (PlaywrightScraper.raised (PlaywrightScraper.on_goto env) = None)
  && bool_decide (PlaywrightScraper.raised (PlaywrightScraper.on_account_check env) = None)
  && PlaywrightScraper.account_missing env.


(** The two writes of a session, in their order. *)
Definition session_writes (env : XScraper.run_env) (c : XScraper.checkpoint)
    (a : XScraper.archive) : list XScraper.disk_event :=
  [ if XScraper.checkpoint_write_ok env then XScraper.CheckpointWritten c
    else XScraper.CheckpointWriteFailed;
    if XScraper.archive_write_ok env then XScraper.ArchiveWritten a
    else XScraper.ArchiveWriteFailed ].

(** ** More of the checkpoint store *)

(** The second loop of [merge_tweets] with its counter: [new_count] goes
    up when the id is not yet a key, then the tweet is written. *)
Definition put_counting (st : Py.dict * nat) (t : tweet) : Py.dict * nat :=
  if truthy (id t) then
    (Py.set (id t) t st.1, if Py.mem (id t) st.1 then st.2 else S st.2)
  else st.

(** The three numbers of the line [merge_tweets] logs:
    "Merged: {len(existing_tweets)} existing + {new_count} new =
    {len(all_tweets)} total". *)
Definition merge_log (existing_tweets new_tweets : list tweet) : nat * nat * nat :=
  let all_tweets := foldl CheckpointManager.put [] existing_tweets in
  let '(all_tweets, new_count) := foldl put_counting (all_tweets, 0%nat) new_tweets in
  (length existing_tweets, new_count, length all_tweets).

(** The first item of a list that has the id [k]. *)
Definition first_with_id (k : string) (l : list tweet) : option tweet :=
  snd <$> list_find (λ t, id t = k) l.

(** A world with an archive of three items and its checkpoint, the
    program logged in; and a resume over it whose feed shows the archived
    items again and then two older ones. *)
Definition archived_world : XScraper.world :=
  XScraper.World
    (XScraper.Disk
       (Some (XScraper.Checkpoint 3 (Some "10") (Some "") (Some "30") (Some "") 1 3))
       (Some (XScraper.Archive [mk "30" ""; mk "20" ""; mk "10" ""] 3 1 (Some ""))))
    [] true (Some PlaywrightScraper.fresh_scraper).

Definition older_feed (n : Z) : PlaywrightScraper.scroll_event :=
  if n =? 1 then pass [item "30"; item "20"; item "10"]
  else if n =? 2 then pass [item "9"; item "8"]
  else pass [].

Definition older_session : PlaywrightScraper.session_env :=
  PlaywrightScraper.SessionEnv PlaywrightScraper.quiet PlaywrightScraper.quiet
    false PlaywrightScraper.quiet older_feed.

Definition older_env : XScraper.run_env :=
  XScraper.RunEnv true true None None older_session None true false true false.

Definition resume_run : PlaywrightScraper.outcome XScraper.result * XScraper.world :=
  XScraper.scrape_user_tweets default_settings older_env "user" true None
    archived_world.

(** ** More of the scroll loop *)

(** The listener has nothing to do with the entry: the extractor made
    nothing of it, or its id is empty, already collected this session, or
    an existing one. *)
Definition seen (s : PlaywrightScraper.scraper) (o : option tweet) : Prop :=
  match o with
  | None => True
  | Some t =>
      truthy (id t) = false
      ∨ id t ∈ PlaywrightScraper.scraped_tweet_ids s
      ∨ PlaywrightScraper.not_existing (id t) s = false
  end.

(** What a stop of the loop says about the state it leaves. *)
Definition certified (c : PlaywrightScraper.config) (r : PlaywrightScraper.stop)
    (l : PlaywrightScraper.loop) : Prop :=
  let s := PlaywrightScraper.self l in
  match r with
  | PlaywrightScraper.MaxScrollAttempts =>
      PlaywrightScraper.scroll_attempts l
      = Z.max 0 (PlaywrightScraper.max_scroll_attempts c)
  | PlaywrightScraper.NoTweetsExtracted =>
      PlaywrightScraper.all_tweets s = [] ∧ 20 ≤ PlaywrightScraper.scroll_attempts l
  | PlaywrightScraper.ResumePointNotFound =>
      PlaywrightScraper.resume_point_found l = false
      ∧ 100 ≤ PlaywrightScraper.scroll_attempts_without_new s
  | PlaywrightScraper.NoNewTweets =>
      PlaywrightScraper.resume_point_found l = true
      ∧ PlaywrightScraper.max_attempts_without_new c
        ≤ PlaywrightScraper.scroll_attempts_without_new s
  | PlaywrightScraper.SessionLimit =>
      PlaywrightScraper.resume_point_found l = true
      ∧ PlaywrightScraper.limit_reached s = true
  | PlaywrightScraper.BottomOfTimeline =>
      10 < PlaywrightScraper.scroll_attempts_without_new s
  | PlaywrightScraper.TenMinutesNoTweets =>
      PlaywrightScraper.all_tweets s = []
  end.

(** ** The retry decorator ([src/decorators.py]) *)

Module Decorators.

(** What one call of the decorated function does: it returns, or raises. *)
Inductive attempt (V E : Type) :=
| Returned (v : V)
| Raised (e : E).
Arguments Returned {V E} v.
Arguments Raised {V E} e.

(** How the wrapper ends: it returns the value, raises an exception of
    the function, or raises its own
    [RuntimeError("... failed without capturing exception")]. *)
Inductive retried (V E : Type) :=
| Ok (v : V)
| Err (e : E)
| NoAttempt.
Arguments Ok {V E} v.
Arguments Err {V E} e.
Arguments NoAttempt {V E}.

Section Retry.
(** [St] is the state the function and the sleep act on, [F] the type of
    the delays with its multiplication; [exceptions] tells which
    exceptions the [except] clause catches. *)
Context {St V E F : Type}.
Context (exceptions : E → bool) (mul : F → F → F).
Context (func : nat → St → attempt V E * St) (sleep : nat → F → St → St).
Context (max_retries : Z) (backoff : F).

(** [for attempt in range(max_retries + 1)]: [n] passes are left. *)
Fixpoint attempts (n : nat) (attempt : nat) (current_delay : F)
    (last_exception : option E) (st : St) : retried V E * St :=
  match n with
  | O =>
      (match last_exception with Some e => Err e | None => NoAttempt end, st)
  | S n' =>
      match func attempt st with
      | (Returned v, st) => (Ok v, st)
      | (Raised e, st) =>
          if exceptions e then
            if Z.of_nat attempt <? max_retries then
              attempts n' (S attempt) (mul current_delay backoff) (Some e)
                (sleep attempt current_delay st)
            else attempts n' (S attempt) current_delay (Some e) st
          else (Err e, st)
      end
  end.

(** The wrapper that [retry_on_network_error(max_retries, delay, backoff,
    exceptions)] puts around [func]. *)
Definition retry_on_network_error (delay : F) (st : St) : retried V E * St :=
  attempts (Z.to_nat (max_retries + 1)) 0 delay None st.

End Retry.

(** A function that does not depend on a state, run under the wrapper
    with a record of the calls made and of the sleeps taken. *)
Definition traced {V E F : Type} (f : nat → attempt V E)
    (k : nat) (st : nat * list F) : attempt V E * (nat * list F) :=
  (f k, (S st.1, st.2)).

Definition record_sleep {F : Type} (k : nat) (d : F) (st : nat * list F)
  : nat * list F :=
  (st.1, st.2 ++ [d]).

Definition retry_traced {V E F : Type} (exceptions : E → bool)
    (mul : F → F → F) (f : nat → attempt V E) (max_retries : Z)
    (delay backoff : F) : retried V E * (nat * list F) :=
  retry_on_network_error exceptions mul (traced f) record_sleep max_retries
    backoff delay (0%nat, []).

(** The delays of [k] sleeps: [delay], [delay * backoff], ... *)
Fixpoint delays {F : Type} (mul : F → F → F) (backoff : F) (k : nat) (d : F)
  : list F :=
  match k with
  | O => []
  | S k' => d :: delays mul backoff k' (mul d backoff)
  end.

(** The attempt raises an exception that the wrapper catches. *)
Definition fails {V E : Type} (exceptions : E → bool) (f : nat → attempt V E)
    (k : nat) : Prop :=
  ∃ e, f k = Raised e ∧ exceptions e = true.

Definition raised_by {V E : Type} (f : nat → attempt V E) (k : nat) : option E :=
  match f k with Raised e => Some e | Returned _ => None end.

End Decorators.

(** ** PlaywrightScraper: the search sessions (lines 587-742) *)

Module PlaywrightSearch.
Import PlaywrightScraper Decorators.

(** What the browser does during [_navigate_with_retry]. *)
Record navigation := Navigation {
  on_attempt : nat → awaited;                (* the k-th [page.goto] and the sleep after it *)
  on_retry_sleep : nat → list (option tweet) (* the entries that arrive during the sleep after the k-th failure *)
}.

(** The body of [_navigate_with_retry], at its call number [k]. *)
Definition navigate (env : navigation) (k : nat) (s : scraper)
  : attempt bool string * scraper :=
  if negb (page s) then (Raised "Browser not initialized", s)
  else
    let s := listen (arrivals (on_attempt env k)) s in
    match raised (on_attempt env k) with
    | Some e => (Raised ("Navigation failed: " +:+ e), s)
    | None => (Returned true, s)
    end.

(** [@retry_on_network_error(max_retries=3, delay=10.0, exceptions=(Exception,))]:
    every exception is caught; the delays 10.0, 20.0, 40.0 are written
    as integers. *)
Definition _navigate_with_retry (env : navigation) (s : scraper)
  : retried bool string * scraper :=
  retry_on_network_error (λ _ : string, true) Z.mul (navigate env)
    (λ k (_ : Z) s, listen (on_retry_sleep env k) s) 3 2 10 s.

(** [_wait_for_tweets]: an error of [wait_for_selector] is swallowed and
    gives [False]. *)
Definition _wait_for_tweets (w : awaited) (s : scraper) : outcome bool * scraper :=
  if negb (page s) then (Raises "Browser not initialized", s)
  else (Returns (bool_decide (raised w = None)), listen (arrivals w) s).

(** The query of [_build_search_url], before it is quoted into the URL;
    [None] where the function raises [ValueError]. *)
Definition search_query (username since_date until_date query : option string)
  : option string :=
  if opt_truthy query then query
  else if opt_truthy username && opt_truthy since_date && opt_truthy until_date
  then Some ("from:" +:+ default "" username +:+ " since:"
             +:+ default "" since_date +:+ " until:" +:+ default "" until_date)
  else if opt_truthy username then Some ("from:" +:+ default "" username)
  else None.

(** What the browser does during one search session. *)
Record search_env := SearchEnv {
  navigation_env : navigation;
  on_wait : awaited;             (* wait_for_selector in [_wait_for_tweets] *)
  search_scrolls : Z → scroll_event
}.

(** The part the two search functions share, from [_build_search_url]
    on, inside their [try]; [label] is the ['username'] or the ['query']
    of the dictionary returned, [existing] the set given to the loop. *)
Definition search (c : config) (env : search_env) (label : string)
    (query : option string) (existing : gset string) (s : scraper)
  : outcome scrape_result * scraper :=
  match query with
  | None =>
      (Returns (ScrapeError "Must provide either query or username"
                  (all_tweets s)), s)
  | Some _ =>
      match _navigate_with_retry (navigation_env env) s with
      | (Ok _, s) =>
          match _wait_for_tweets (on_wait env) s with
          | (Raises e, s) => (Returns (ScrapeError e (all_tweets s)), s)
          | (Returns false, s) => (Returns (Scraped label [] 0), s)
          | (Returns true, s) =>
              match _scroll_timeline c None existing (search_scrolls env) s with
              | Raise e l => (Returns (ScrapeError e (all_tweets (self l))), self l)
              | Break _ l | Next l =>
                  (Returns (Scraped label (all_tweets (self l))
                              (length (all_tweets (self l)))), self l)
              end
          end
      | (Err e, s) => (Returns (ScrapeError e (all_tweets s)), s)
      | (NoAttempt, s) =>
          (Returns (ScrapeError
                      "_navigate_with_retry failed without capturing exception"
                      (all_tweets s)), s)
      end
  end.

(** The ['tweets'] of the dictionary returned. *)
Definition tweets_of (r : scrape_result) : list tweet :=
  match r with
  | Scraped _ ts _ => ts
  | ScrapeError _ ts => ts
  end.

(** [scrape_user_tweets_by_search] *)
Definition scrape_user_tweets_by_search (c : config) (env : search_env)
    (username since_date until_date : string)
    (max_tweets_per_range : option Z) (existing_tweet_ids : option (gset string))
    (s : scraper) : outcome scrape_result * scraper :=
  if negb (page s) then (Raises "Browser not initialized", s)
  else
    let s := prepare max_tweets_per_range existing_tweet_ids s in
    search c env username
      (search_query (Some username) (Some since_date) (Some until_date) None)
      (default ∅ (PlaywrightScraper.existing_tweet_ids s)) s.

(** [search_tweets]: the session starts with [existing_tweet_ids=set()], and
    the loop is given [set()]. *)
Definition search_tweets (c : config) (env : search_env) (query : string)
    (max_tweets : option Z) (s : scraper) : outcome scrape_result * scraper :=
  if negb (page s) then (Raises "Browser not initialized", s)
  else
    let s := prepare max_tweets (Some ∅) s in
    search c env query (search_query None None None (Some query)) ∅ s.

End PlaywrightSearch.

(** ** XScraper: search by date range, and the historical crawl
    ([src/scraper.py] lines 378-416, [cli/historical.py] lines 15-56) *)

Module Historical.
Import PlaywrightScraper XScraper.

(** What happens outside the program during one date range. *)
Record range_env := RangeEnv {
  range_browser_ok : bool;
  range_login_ok : bool;
  range_search : PlaywrightSearch.search_env;
  range_sleep : list (option tweet)  (* the entries that arrive during the wait before the next range *)
}.

(** [XScraper.scrape_user_tweets_by_search]: the scraper's dictionary is
    returned as it is; every exception is raised again. *)
Definition scrape_user_tweets_by_search (cfg : settings) (env : range_env)
    (username since_date until_date : string)
    (max_tweets_per_range : option Z) (existing_tweet_ids : option (gset string))
    (w : world) : outcome scrape_result * world :=
  let '(ready, w) :=
    if bool_decide (browser w = None) || negb (logged_in w)
    then login (range_browser_ok env) (range_login_ok env) w else (true, w) in
  if negb ready then (Raises "Failed to login before scraping", w)
  else
    match browser w with
    | None => (Raises "Playwright scraper not initialized", w)
    | Some b =>
        match PlaywrightSearch.scrape_user_tweets_by_search (scraping cfg)
                (range_search env) username since_date until_date
                max_tweets_per_range existing_tweet_ids b with
        | (Raises e, b) => (Raises e, with_browser b w)
        | (Returns scrape_result, b) => (Returns scrape_result, with_browser b w)
        end
    end.

(** Lines 44-48: one item of [new_tweets]. *)
Definition add_new (acc : list tweet * gset string) (t : tweet)
  : list tweet * gset string :=
  if truthy (id t) && bool_decide (id t ∉ acc.2)
  then (acc.1 ++ [t], {[id t]} ∪ acc.2)
  else acc.

(** The two counts the command prints for each range:
    "Collected {len(new_tweets)} tweets from this range" and
    "Total unique tweets so far: {len(all_tweets)}". *)
Record echo := Echo {
  collected : nat;
  total_unique : nat
}.

(** The set the caller fills is the object the scraper filters with,
    when the scraper took it ([existing_tweet_ids or set()] takes it
    unless it is empty): the additions of the caller show in the
    scraper. *)
Definition share_existing (given now : gset string) (w : world) : world :=
  match browser w with
  | Some b =>
      if bool_decide (given ≠ ∅) then
        with_browser
          (Scraper (page b) (all_tweets b) (scraped_tweet_ids b) (Some now)
             (max_tweets_per_session b) (scroll_attempts_without_new b) (log b)) w
      else w
  | None => w
  end.

(** [await asyncio.sleep(delay_between_ranges)]: the listener stays
    active. *)
Definition sleep_between (entries : list (option tweet)) (w : world) : world :=
  match browser w with
  | Some b => with_browser (listen entries b) w
  | None => w
  end.

(** The [for] loop of [scrape_date_ranges], from the range number [idx]
    on; [total] is [len(date_ranges)]. *)
Fixpoint ranges_from (cfg : settings) (env : nat → range_env) (username : string)
    (max_tweets : Z) (total : nat) (idx : nat) (date_ranges : list (string * string))
    (all_tweets : list tweet) (existing_tweet_ids : gset string)
    (out : list echo) (w : world)
  : outcome (list tweet * gset string) * list echo * world :=
  match date_ranges with
  | [] => (Returns (all_tweets, existing_tweet_ids), out, w)
  | (range_start, range_end) :: rest =>
      match scrape_user_tweets_by_search cfg (env idx) username range_start
              range_end (Some max_tweets) (Some existing_tweet_ids) w with
      | (Raises e, w) => (Raises e, out, w)
      | (Returns result, w) =>
          let new_tweets := PlaywrightSearch.tweets_of result in
          let acc := foldl add_new (all_tweets, existing_tweet_ids) new_tweets in
          let w := share_existing existing_tweet_ids acc.2 w in
          let out := out ++ [Echo (length new_tweets) (length acc.1)] in
          let w :=
            if (idx <? total)%nat then sleep_between (range_sleep (env idx)) w
            else w in
          ranges_from cfg env username max_tweets total (S idx) rest
            acc.1 acc.2 out w
      end
  end.

(** [scrape_date_ranges(scraper, username, date_ranges, max_tweets, delay)] *)
Definition scrape_date_ranges (cfg : settings) (env : nat → range_env)
    (username : string) (date_ranges : list (string * string)) (max_tweets : Z)
    (w : world) : outcome (list tweet * gset string) * list echo * world :=
  ranges_from cfg env username max_tweets (length date_ranges) 1 date_ranges
    [] ∅ [] w.

End Historical.

(** The counts printed add up to [total]: each total printed is the
    total before plus the count collected in the range, and [total] is
    the last one. *)
Fixpoint adds_up (before : nat) (out : list Historical.echo) (total : nat) : Prop :=
  match out with
  | [] => total = before
  | Historical.Echo n m :: out' => m = (before + n)%nat ∧ adds_up m out' total
  end.

(** A search whose four navigations time out, an item arriving during
    the second. *)
Definition unreachable : PlaywrightSearch.search_env :=
  PlaywrightSearch.SearchEnv
    (PlaywrightSearch.Navigation
       (λ k, PlaywrightScraper.Awaited
               (if (k =? 1)%nat then [Some (mk "7" "")] else [])
               (Some "Timeout 30000ms exceeded"))
       (λ _, []))
    PlaywrightScraper.quiet
    (λ _, PlaywrightScraper.ScrollEvent PlaywrightScraper.quiet
            PlaywrightScraper.quiet false PlaywrightScraper.quiet false).

(** ** The date ranges of the historical crawl ([src/date_utils.py]) *)

Module DateUtils.
Import PlaywrightScraper.

(** A [datetime] at midnight, as [strptime(..., '%Y-%m-%d')] gives
    them; the strings of the ranges are these dates written by
    [strftime('%Y-%m-%d')]. *)
Record datetime := Datetime {
  year : Z;
  month : Z;
  day : Z
}.

#[global] Instance datetime_eq_dec : EqDecision datetime.
Proof. solve_decision. Defined.

(** [a < b] *)
Definition lt (a b : datetime) : bool :=
  (year a <? year b)
  || ((year a =? year b)
      && ((month a <? month b) || ((month a =? month b) && (day a <? day b)))).

(** [min(a, b)] *)
Definition min (a b : datetime) : datetime := if lt b a then b else a.

Definition is_leap (y : Z) : bool :=
  (y `mod` 4 =? 0) && (negb (y `mod` 100 =? 0) || (y `mod` 400 =? 0)).

Definition days_in_month (y m : Z) : Z :=
  if m =? 2 then (if is_leap y then 29 else 28)
  else if (m =? 4) || (m =? 6) || (m =? 9) || (m =? 11) then 30
  else 31.

(** The dates of the calendar, years 1 to 9999. *)
Definition valid (d : datetime) : Prop :=
  1 ≤ year d ≤ 9999 ∧ 1 ≤ month d ≤ 12
  ∧ 1 ≤ day d ≤ days_in_month (year d) (month d).

(** [datetime(y, m, 1)], for a month from 1 to 12: a year after 9999
    raises [ValueError]. *)
Definition first_of_month (y m : Z) : outcome datetime :=
  if y <=? 9999 then Returns (Datetime y m 1)
  else Raises "year is out of range".

(** [current + timedelta(days=7)]: a date after 9999-12-31 raises
    [OverflowError]. *)
Definition plus_week (current : datetime) : outcome datetime :=
  let d := day current + 7 in
  let n := days_in_month (year current) (month current) in
  if d <=? n then Returns (Datetime (year current) (month current) d)
  else if month current =? 12 then
    if year current + 1 <=? 9999 then Returns (Datetime (year current + 1) 1 (d - n))
    else Raises "date value out of range"
  else Returns (Datetime (year current) (month current + 1) (d - n)).

(** Lines 23-26: the first day of the next month. *)
Definition next_month (current : datetime) : outcome datetime :=
  if month current =? 12 then first_of_month (year current + 1) 1
  else first_of_month (year current) (month current + 1).

(** Lines 37-43: the first day of the next quarter. *)
Definition next_quarter (current : datetime) : outcome datetime :=
  let current_quarter := (month current - 1) / 3 in
  let next_quarter_month := (current_quarter + 1) * 3 + 1 in
  if 12 <? next_quarter_month then first_of_month (year current + 1) 1
  else first_of_month (year current) next_quarter_month.

(** The [while current < end] loop, the same in the three branches but
    for the step; [passes] bounds the number of passes. *)
Fixpoint chunks (step : datetime → outcome datetime) (passes : nat)
    (current end_ : datetime) (ranges : list (datetime * datetime))
  : outcome (list (datetime * datetime)) :=
  match passes with
  | O => Returns ranges
  | S passes' =>
      if lt current end_ then
        match step current with
        | Raises e => Raises e
        | Returns chunk_end =>
            let chunk_end := min chunk_end end_ in
            chunks step passes' chunk_end end_ (ranges ++ [(current, chunk_end)])
        end
      else Returns ranges
  end.

(** A count of days that grows with the date (months of 31 days). *)
Definition rank (d : datetime) : Z := year d * 372 + month d * 31 + day d.

(** [generate_date_ranges(start_date, end_date, chunk_type)], on the
    parsed dates.  Every pass moves [current] forward by a day at least,
    so that [rank end - rank start] passes are enough. *)
Definition generate_date_ranges (start end_ : datetime) (chunk_type : string)
  : outcome (list (datetime * datetime)) :=
  let passes := Z.to_nat (rank end_ - rank start) in
  if String.eqb chunk_type "weekly" then chunks plus_week passes start end_ []
  else if String.eqb chunk_type "monthly" then chunks next_month passes start end_ []
  else if String.eqb chunk_type "quarterly" then
    chunks next_quarter passes start end_ []
  else Returns [].

End DateUtils.

(** The ranges go from [from] to [to] without gap or overlap, and none
    is empty. *)
Fixpoint tiles (from : DateUtils.datetime)
    (ranges : list (DateUtils.datetime * DateUtils.datetime))
    (to : DateUtils.datetime) : Prop :=
  match ranges with
  | [] => from = to
  | (a, b) :: ranges' =>
      a = from ∧ DateUtils.lt a b = true ∧ DateUtils.valid b ∧ tiles b ranges' to
  end.

(** * Properties *)

(** ** Dictionaries *)

Section Dict.
Implicit Types (d : Py.dict) (k : string) (v t : tweet) (l : list tweet).

Lemma keys_set k v d : (Py.set k v d).*1 = add_key d.*1 k.
Proof.
  unfold add_key. induction d as [|[k' v'] d IH]; [done|].
  cbn [Py.set]. destruct (decide (k' = k)) as [->|Hne].
  - rewrite fmap_cons. cbn [fst]. rewrite decide_True; [done | set_solver].
  - rewrite !fmap_cons, IH. cbn [fst].
    destruct (decide (k ∈ d.*1)) as [Hin|Hin].
    + rewrite decide_True; [done | set_solver].
    + rewrite decide_False; [done | set_solver].
Qed.

Lemma get_set k k' v d :
  Py.get k' (Py.set k v d) = if decide (k = k') then Some v else Py.get k' d.
Proof.
  induction d as [|[k0 v0] d IH]; simpl.
  - destruct (decide (k = k')); done.
  - destruct (decide (k0 = k)) as [->|Hne]; simpl.
    + destruct (decide (k = k')); done.
    + destruct (decide (k0 = k')) as [->|Hne'].
      * rewrite decide_False; [done | congruence].
      * apply IH.
Qed.

Lemma get_None k d : Py.get k d = None ↔ k ∉ d.*1.
Proof.
  induction d as [|[k0 v0] d IH]; simpl.
  - split; [set_solver | done].
  - destruct (decide (k0 = k)) as [->|Hne].
    + split; [done | set_solver].
    + rewrite IH. set_solver.
Qed.

Lemma get_Some_elem k v d : Py.get k d = Some v → (k, v) ∈ d.
Proof.
  induction d as [|[k0 v0] d IH]; simpl; [done|].
  destruct (decide (k0 = k)) as [->|Hne].
  - intros [= ->]. set_solver.
  - intros H. apply IH in H. set_solver.
Qed.

Lemma elem_get k v d : NoDup d.*1 → (k, v) ∈ d → Py.get k d = Some v.
Proof.
  induction d as [|[k0 v0] d IH]; simpl; [set_solver|].
  intros Hnd Hin. apply NoDup_cons in Hnd as [Hk0 Hnd].
  apply elem_of_cons in Hin as [[= -> ->]|Hin].
  - by rewrite decide_True.
  - rewrite decide_False; [by apply IH|].
    intros ->. apply Hk0. apply list_elem_of_fmap. by exists (k, v).
Qed.

Lemma dict_ext d1 d2 :
  NoDup d1.*1 → d1.*1 = d2.*1 → (∀ k, Py.get k d1 = Py.get k d2) → d1 = d2.
Proof.
  revert d2. induction d1 as [|[k1 v1] d1 IH]; intros [|[k2 v2] d2]; try done.
  rewrite !fmap_cons. cbn [fst].
  intros Hnd [= <- Hks] Hget. cbn [Py.get] in Hget. apply NoDup_cons in Hnd as [Hk1 Hnd].
  pose proof (Hget k1) as Hv. rewrite !decide_True in Hv by done.
  injection Hv as <-. f_equal. apply IH; [done..|].
  intros k. destruct (decide (k1 = k)) as [<-|Hne].
  - assert (Py.get k1 d1 = None) as -> by by apply get_None.
    symmetry. apply get_None. by rewrite <- Hks.
  - specialize (Hget k). by rewrite !decide_False in Hget.
Qed.

Lemma add_key_NoDup ks k : NoDup ks → NoDup (add_key ks k).
Proof.
  unfold add_key. intros Hnd. destruct (decide (k ∈ ks)); [done|].
  apply NoDup_app. split_and!; [done | set_solver | apply NoDup_singleton].
Qed.

Lemma keyed_set k t d :
  id t = k → truthy k = true → keyed d → keyed (Py.set k t d).
Proof.
  intros Hid Hk. unfold keyed. induction d as [|[k0 v0] d IH]; simpl.
  - intros _. by constructor.
  - intros Hd. apply Forall_cons in Hd as [H0 Hd].
    destruct (decide (k0 = k)); constructor; auto.
Qed.

Lemma keyed_values d : keyed d → id <$> Py.values d = d.*1.
Proof.
  unfold Py.values. induction 1 as [|[k v] d [Hk _] _ IH]; simpl in *;
    [done | by f_equal].
Qed.

Lemma keyed_is_archive d : keyed d → NoDup d.*1 → is_archive (Py.values d).
Proof.
  intros Hk Hnd. split; [by rewrite keyed_values|].
  unfold Py.values. induction Hk as [|[k v] d [Hid Ht] _ IH]; simpl in *;
    constructor.
  - by rewrite Hid.
  - apply IH. by apply NoDup_cons in Hnd as [_ ?].
Qed.

Lemma elem_values_get d t :
  NoDup d.*1 → (t ∈ Py.values d ↔ ∃ k, Py.get k d = Some t).
Proof.
  intros Hnd. unfold Py.values. rewrite list_elem_of_fmap. split.
  - intros ([k v] & -> & Hin). exists k. by apply elem_get.
  - intros (k & Hget). exists (k, t). split; [done|]. by apply get_Some_elem.
Qed.

End Dict.

(** ** The merge of the checkpoint store *)

Section Merge.
Import CheckpointManager.
Implicit Types (d : Py.dict) (k : string) (t : tweet) (l : list tweet)
  (ks : list string).

Lemma keys_put d t :
  (put d t).*1 = if truthy (id t) then add_key d.*1 (id t) else d.*1.
Proof. unfold put. destruct (truthy (id t)); [apply keys_set | done]. Qed.

Lemma keys_foldl_put l d :
  (foldl put d l).*1 = foldl add_key d.*1 (List.filter truthy (id <$> l)).
Proof.
  revert d. induction l as [|t l IH]; intros d; [done|].
  cbn [foldl fmap list_fmap List.filter]. rewrite IH, keys_put.
  by destruct (truthy (id t)).
Qed.

Lemma put_NoDup d t : NoDup d.*1 → NoDup (put d t).*1.
Proof.
  rewrite keys_put. destruct (truthy (id t)); [apply add_key_NoDup | done].
Qed.

Lemma put_keyed d t : keyed d → keyed (put d t).
Proof.
  unfold put. destruct (truthy (id t)) eqn:Ht; [|done].
  by apply keyed_set.
Qed.

Lemma foldl_put_wf l d :
  keyed d → NoDup d.*1 →
  keyed (foldl put d l) ∧ NoDup (foldl put d l).*1.
Proof.
  revert d. induction l as [|t l IH]; intros d Hk Hnd; [done|].
  apply IH; [by apply put_keyed | by apply put_NoDup].
Qed.

Lemma get_put k d t :
  Py.get k (put d t)
  = if truthy (id t) && bool_decide (id t = k) then Some t else Py.get k d.
Proof.
  unfold put. destruct (truthy (id t)); [|done].
  rewrite get_set. cbn [andb]. case_decide; case_bool_decide; done.
Qed.

(** A dictionary filled by [put] and the finite map filled by the
    insertions of the items with an id agree on every key. *)
Lemma get_foldl_put l d (m : gmap string tweet) :
  (∀ k, Py.get k d = m !! k) →
  ∀ k, Py.get k (foldl put d l)
       = foldl spec_insert m (List.filter has_id l) !! k.
Proof.
  revert d m. induction l as [|t l IH]; intros d m Hdm k; [apply Hdm|].
  cbn [foldl List.filter]. unfold has_id at 1.
  destruct (truthy (id t)) eqn:Ht.
  - cbn [foldl]. apply IH. intros k'. rewrite get_put, Ht. cbn [andb].
    unfold spec_insert. rewrite lookup_insert.
    case_bool_decide; case_decide; try done; apply Hdm.
  - apply IH. intros k'. rewrite get_put, Ht. apply Hdm.
Qed.

(** Keys: what is already there stays in front. *)
Lemma add_keys_known ks xs : xs ⊆ ks → foldl add_key ks xs = ks.
Proof.
  induction xs as [|x xs IH]; intros Hsub; [done|].
  cbn [foldl]. unfold add_key at 2.
  rewrite decide_True by set_solver. apply IH. set_solver.
Qed.

Lemma add_keys_fresh xs ks :
  NoDup xs → (∀ x : string, x ∈ xs → x ∉ ks) → foldl add_key ks xs = ks ++ xs.
Proof.
  revert ks. induction xs as [|x xs IH]; intros ks Hnd Hfresh.
  - by rewrite app_nil_r.
  - apply NoDup_cons in Hnd as [Hx Hnd]. cbn [foldl]. unfold add_key at 2.
    rewrite decide_False by set_solver.
    rewrite IH; [by rewrite <- app_assoc | done |].
    intros y Hy. specialize (Hfresh y). set_solver.
Qed.

Lemma add_keys_prefix xs ks :
  NoDup ks →
  ∃ r, foldl add_key ks xs = ks ++ r ∧ NoDup (ks ++ r).
Proof.
  revert ks. induction xs as [|x xs IH]; intros ks Hnd.
  - exists []. by rewrite app_nil_r.
  - cbn [foldl]. destruct (IH (add_key ks x)) as (r & Hr & Hnd');
      [by apply add_key_NoDup|].
    rewrite Hr. clear Hr. unfold add_key in *. destruct (decide (x ∈ ks)).
    + by exists r.
    + exists (x :: r). by rewrite <- !app_assoc in *.
Qed.

Lemma add_keys_idem xs ks :
  NoDup ks → foldl add_key ks (foldl add_key ks xs) = foldl add_key ks xs.
Proof.
  intros Hnd. destruct (add_keys_prefix xs ks Hnd) as (r & -> & Hnd').
  rewrite foldl_app, (add_keys_known ks ks) by set_solver.
  apply NoDup_app in Hnd' as (_ & Hdisj & Hr).
  apply add_keys_fresh; [done|]. intros x Hx Hin. by apply (Hdisj x).
Qed.

(** Reading back the values of a well-formed dictionary. *)
Lemma get_foldl_put_archive l d k :
  is_archive l →
  Py.get k (foldl put d l)
  = match list_find (λ t, id t = k) l with
    | Some (_, t) => Some t
    | None => Py.get k d
    end.
Proof.
  revert d. induction l as [|t l IH]; intros d [Hnd Hall]; [done|].
  rewrite fmap_cons in Hnd. apply NoDup_cons in Hnd as [Ht Hnd].
  apply Forall_cons in Hall as [Htr Hall].
  cbn [foldl list_find]. rewrite IH by done.
  destruct (decide (id t = k)) as [<-|Hne].
  - destruct (list_find _ l) as [[i t']|] eqn:Hfind.
    + apply list_find_Some in Hfind as (Hi & Heq & _).
      exfalso. apply Ht. rewrite <- Heq.
      apply list_elem_of_fmap. exists t'. split; [done|].
      by eapply list_elem_of_lookup_2.
    + cbn. rewrite get_put, Htr. cbn [andb]. by rewrite bool_decide_true.
  - destruct (list_find _ l) as [[i t']|] eqn:Hfind; [done|].
    cbn. rewrite get_put, Htr. cbn [andb]. by rewrite bool_decide_false.
Qed.

Lemma find_values d k :
  keyed d →
  match list_find (λ t, id t = k) (Py.values d) with
  | Some (_, t) => Some t
  | None => None
  end = Py.get k d.
Proof.
  unfold Py.values. induction 1 as [|[k0 v0] d [Hid _] _ IH]; [done|].
  rewrite fmap_cons. cbn [list_find fst snd Py.get] in *. rewrite Hid.
  destruct (decide (k0 = k)); [done|].
  rewrite <- IH. by destruct (list_find _ d.*2) as [[??]|].
Qed.

Lemma foldl_put_NoDup l d : NoDup d.*1 → NoDup (foldl put d l).*1.
Proof.
  revert d. induction l as [|t l IH]; intros d Hnd; [done|].
  apply IH. by apply put_NoDup.
Qed.

Lemma filter_truthy_keys d : keyed d → List.filter truthy d.*1 = d.*1.
Proof.
  induction 1 as [|[k v] d [_ Ht] _ IH]; [done|].
  rewrite fmap_cons. cbn [List.filter fst] in *. by rewrite Ht, IH.
Qed.

(** Writing the values of a well-formed dictionary [d'] into a dictionary
    whose keys [d'] extends in the same order gives [d'] back. *)
Lemma foldl_put_values d d' xs :
  keyed d' → NoDup d.*1 → d'.*1 = foldl add_key d.*1 xs →
  foldl put d (Py.values d') = d'.
Proof.
  intros Hk Hnd Hkeys.
  destruct (add_keys_prefix xs d.*1 Hnd) as (r & Hr & Hndr).
  assert (NoDup d'.*1) as Hnd' by by rewrite Hkeys, Hr.
  pose proof (keyed_is_archive d' Hk Hnd') as Harch.
  apply dict_ext.
  - by apply foldl_put_NoDup.
  - rewrite keys_foldl_put, keyed_values, filter_truthy_keys by done.
    rewrite Hkeys. by apply add_keys_idem.
  - intros k. rewrite get_foldl_put_archive by done.
    pose proof (find_values d' k Hk) as Hfind.
    destruct (list_find _ (Py.values d')) as [[i t]|]; [done|].
    rewrite <- Hfind. apply get_None. symmetry in Hfind.
    apply get_None in Hfind. rewrite Hkeys, Hr in Hfind. set_solver.
Qed.

Lemma merge_dict_wf existing new :
  keyed (foldl put (foldl put [] existing) new)
  ∧ NoDup (foldl put (foldl put [] existing) new).*1.
Proof.
  destruct (foldl_put_wf existing []) as [Hk Hnd];
    [constructor | constructor |].
  by apply foldl_put_wf.
Qed.

Lemma merge_is_archive existing new : is_archive (merge_tweets existing new).
Proof.
  destruct (merge_dict_wf existing new). by apply keyed_is_archive.
Qed.

Lemma merge_idempotent existing new :
  merge_tweets existing (merge_tweets existing new) = merge_tweets existing new.
Proof.
  unfold merge_tweets. f_equal.
  destruct (merge_dict_wf existing new) as [Hk Hnd].
  apply (foldl_put_values _ _ (List.filter truthy (id <$> new))); [done | |].
  - apply foldl_put_NoDup. constructor.
  - apply keys_foldl_put.
Qed.

(** An archive is its own dictionary. *)
Lemma set_fresh k t d : k ∉ d.*1 → Py.set k t d = d ++ [(k, t)].
Proof.
  induction d as [|[k0 v0] d IH]; [done|].
  rewrite fmap_cons. cbn [fst Py.set]. intros Hk.
  rewrite decide_False by set_solver. rewrite IH by set_solver. done.
Qed.

Lemma put_fresh d t :
  truthy (id t) = true → id t ∉ d.*1 →
  put d t = d ++ [(id t, t)] ∧ put_new d t = d ++ [(id t, t)].
Proof.
  intros Ht Hk. unfold put, put_new, Py.mem. rewrite Ht.
  rewrite bool_decide_false by done. cbn [andb negb].
  by rewrite set_fresh.
Qed.

Lemma foldl_put_archive l d :
  is_archive l → (∀ t, t ∈ l → id t ∉ d.*1) →
  foldl put d l = d ++ ((λ t, (id t, t)) <$> l)
  ∧ foldl put_new d l = d ++ ((λ t, (id t, t)) <$> l).
Proof.
  revert d. induction l as [|t l IH]; intros d [Hnd Hall] Hfresh.
  - by rewrite app_nil_r.
  - rewrite fmap_cons in Hnd. apply NoDup_cons in Hnd as [Ht Hnd].
    apply Forall_cons in Hall as [Htr Hall]. cbn [foldl].
    destruct (put_fresh d t Htr) as [-> ->]; [apply Hfresh; set_solver|].
    replace (d ++ ((λ t0, (id t0, t0)) <$> t :: l))
      with ((d ++ [(id t, t)]) ++ ((λ t0, (id t0, t0)) <$> l))
      by (by rewrite fmap_cons, <- app_assoc).
    apply IH; [done|].
    intros t' Ht'. rewrite fmap_app, fmap_cons. cbn [fst fmap list_fmap].
    specialize (Hfresh t'). rewrite not_elem_of_app, list_elem_of_singleton.
    split; [set_solver|]. intros Heq. apply Ht. rewrite <- Heq.
    by apply list_elem_of_fmap_2.
Qed.

Lemma values_of_archive l : Py.values ((λ t, (id t, t)) <$> l) = l.
Proof.
  unfold Py.values. rewrite <- list_fmap_compose.
  rewrite <- (list_fmap_id l) at 2. by apply list_fmap_ext.
Qed.

Lemma merge_archive_nil l : is_archive l → merge_tweets l [] = l.
Proof.
  intros Harch. unfold merge_tweets. cbn [foldl].
  destruct (foldl_put_archive l [] Harch) as [-> _]; [set_solver|].
  apply values_of_archive.
Qed.

Lemma unique_of_archive l :
  is_archive l → Py.values (foldl put_new [] l) = l.
Proof.
  intros Harch.
  destruct (foldl_put_archive l [] Harch) as [_ ->]; [set_solver|].
  apply values_of_archive.
Qed.

End Merge.

(** ** Sorting *)

Section Sorting.
Context {A : Type} (key : A → N).
Implicit Types (x : A) (l : list A).

Lemma insert_desc_perm x l : Py.insert_desc key x l ≡ₚ x :: l.
Proof.
  induction l as [|y l IH]; [done|]. cbn [Py.insert_desc].
  destruct (key x <? key y)%N; [|done].
  rewrite IH. apply perm_swap.
Qed.

Lemma sorted_desc_perm l : Py.sorted_desc key l ≡ₚ l.
Proof.
  induction l as [|x l IH]; [done|]. cbn [Py.sorted_desc foldr].
  fold (Py.sorted_desc key l). by rewrite insert_desc_perm, IH.
Qed.

Lemma insert_desc_sorted x l :
  StronglySorted (λ a b, (key b ≤ key a)%N) l →
  StronglySorted (λ a b, (key b ≤ key a)%N) (Py.insert_desc key x l).
Proof.
  induction 1 as [|y l Hl IH Hy]; cbn [Py.insert_desc].
  - repeat constructor.
  - destruct (N.ltb_spec (key x) (key y)) as [Hlt|Hge].
    + constructor; [done|].
      rewrite insert_desc_perm. constructor; [lia | done].
    + constructor; [by constructor|].
      constructor; [done|].
      eapply Forall_impl; [exact Hy|]. cbn. intros; lia.
Qed.

Lemma sorted_desc_sorted l :
  StronglySorted (λ a b, (key b ≤ key a)%N) (Py.sorted_desc key l).
Proof.
  induction l as [|x l IH]; [constructor|].
  cbn [Py.sorted_desc foldr]. by apply insert_desc_sorted.
Qed.

End Sorting.

(** ** The archive written by [save_all_tweets] *)

Section Save.
Import CheckpointManager.

Lemma put_new_wf d t :
  keyed d → NoDup d.*1 → keyed (put_new d t) ∧ NoDup (put_new d t).*1.
Proof.
  intros Hk Hnd. unfold put_new.
  destruct (truthy (id t)) eqn:Ht; [|done].
  destruct (negb _); [|done]. cbn [andb]. split.
  - by apply keyed_set.
  - rewrite keys_set. by apply add_key_NoDup.
Qed.

Lemma foldl_put_new_wf l d :
  keyed d → NoDup d.*1 →
  keyed (foldl put_new d l) ∧ NoDup (foldl put_new d l).*1.
Proof.
  revert d. induction l as [|t l IH]; intros d Hk Hnd; [done|].
  destruct (put_new_wf d t Hk Hnd). by apply IH.
Qed.

Lemma sorted_tweets_NoDup l : NoDup (id <$> sorted_tweets l).
Proof.
  unfold sorted_tweets. rewrite sorted_desc_perm.
  destruct (foldl_put_new_wf l []) as [Hk Hnd]; [constructor..|].
  by rewrite keyed_values.
Qed.

Lemma sorted_tweets_of_archive l :
  is_archive l → sorted_tweets l = Py.sorted_desc id_key l.
Proof. intros Harch. unfold sorted_tweets. by rewrite unique_of_archive. Qed.

(** The ordering example of the design document: ids are compared as
    numbers, not as strings. *)
Example sorted_tweets_example :
  id <$> sorted_tweets [mk "100" "a"; mk "205" "b"; mk "17" "c"]
  = ["205"; "100"; "17"].
Proof. reflexivity. Qed.

End Save.

(** ** The merge law *)

Section MergeLaw.
Import CheckpointManager.

(** C3, counterexample: merging an existing item of id 1 with a new item
    of id 2 returns them in that order, which is not descending by id;
    and an item without id is in the mapping of the law but not in the
    merge. *)
Lemma merge_law_counterexample :
  merge_tweets [mk "1" "a"] [mk "2" "b"] = [mk "1" "a"; mk "2" "b"]
  ∧ ¬ merge_law_as_stated [mk "1" "a"] [mk "2" "b"]
  ∧ ¬ merge_law_as_stated [mk "" "a"] [].
Proof.
  split; [reflexivity|]. split.
  - intros [_ Hs]. change (merge_tweets _ _) with [mk "1" "a"; mk "2" "b"] in Hs.
    apply StronglySorted_inv in Hs as [_ Hall].
    apply Forall_cons in Hall as [Hle _]. vm_compute in Hle. by apply Hle.
  - intros [Hv _]. specialize (Hv (mk "" "a")).
    change (merge_tweets _ _) with (@nil tweet) in Hv.
    apply not_elem_of_nil with (x := mk "" "a"). apply Hv.
    exists "". unfold spec_mapping, spec_insert. cbn [foldl].
    apply lookup_insert_eq.
Qed.

(** C3, as amended: the merge holds exactly the values of the mapping
    built from the items that have an id, existing items first and new
    items inserted or overwriting; it lists them in the insertion order
    of that mapping, not sorted; the archive written from it by
    [save_all_tweets] is the merge sorted by numeric id, descending. *)
Theorem merge_values_in_insertion_order existing new :
  (∀ t, t ∈ merge_tweets existing new
        ↔ ∃ k, spec_mapping (List.filter has_id existing)
                 (List.filter has_id new) !! k = Some t)
  ∧ id <$> merge_tweets existing new
    = insertion_order (List.filter truthy (id <$> (existing ++ new)))
  ∧ by_id_desc (sorted_tweets (merge_tweets existing new))
  ∧ sorted_tweets (merge_tweets existing new) ≡ₚ merge_tweets existing new.
Proof.
  destruct (merge_dict_wf existing new) as [Hk Hnd].
  pose proof (merge_is_archive existing new) as Harch.
  split_and!.
  - intros t. unfold merge_tweets. rewrite elem_values_get by done.
    unfold spec_mapping. apply exist_proper. intros k.
    rewrite (get_foldl_put new _ (foldl spec_insert ∅ (List.filter has_id existing)));
      [done|].
    intros k'. by rewrite (get_foldl_put existing [] ∅).
  - unfold merge_tweets, insertion_order. rewrite keyed_values by done.
    rewrite !keys_foldl_put, fmap_app, List.filter_app, foldl_app. done.
  - rewrite sorted_tweets_of_archive by done. apply sorted_desc_sorted.
  - rewrite sorted_tweets_of_archive by done. apply sorted_desc_perm.
Qed.

(** C5: merging the result of a merge again changes nothing; merging an
    empty new list gives the archive built from the existing items alone,
    and is a no-op on the result of a merge and on every archive. *)
Theorem merge_idempotence existing new :
  merge_tweets existing (merge_tweets existing new) = merge_tweets existing new
  ∧ merge_tweets existing [] = merge_tweets [] existing
  ∧ merge_tweets (merge_tweets existing new) [] = merge_tweets existing new
  ∧ (is_archive existing → merge_tweets existing [] = existing).
Proof.
  split_and!.
  - apply merge_idempotent.
  - reflexivity.
  - apply merge_archive_nil, merge_is_archive.
  - apply merge_archive_nil.
Qed.

(** C5 at the archive 205, 100 and the new items 100, 17. *)
Lemma merge_idempotence_witness :
  let a := [mk "205" "x"; mk "100" "y"] in
  let b := [mk "100" "z"; mk "17" "w"] in
  merge_tweets a (merge_tweets a b) = merge_tweets a b
  ∧ merge_tweets a [] = a.
Proof.
  intros a b. destruct (merge_idempotence a b) as (H1 & _ & _ & H4).
  split; [exact H1|]. apply H4. apply (bool_decide_unpack _). vm_compute.
  reflexivity.
Defined.

End MergeLaw.

(** ** The scroll loop *)

Section ScrollLoop.
Import PlaywrightScraper.
Implicit Types (s : scraper) (l : loop) (ev : scroll_event).

Lemma reach_trans s0 s1 s2 : reach s0 s1 → reach s1 s2 → reach s0 s2.
Proof. intros H1 H2. induction H2; [done | by constructor..]. Qed.

Lemma reach_listen s0 s entries : reach s0 s → reach s0 (listen entries s).
Proof.
  revert s. unfold listen.
  induction entries as [|o entries IH]; intros s Hs; [done|].
  apply IH. by constructor.
Qed.

Section Pass.
Context (c : config) (resume_from_tweet_id : option string)
        (existing : gset string).

Lemma reach_overlap_check s0 found new_tweets s :
  reach s0 s →
  reach s0 (overlap_check c resume_from_tweet_id existing found new_tweets s).2.
Proof.
  intros Hs. unfold overlap_check.
  repeat case_match; cbn [snd]; try done. by repeat constructor.
Qed.

Lemma reach_progress_check s0 attempts found new_tweets s :
  reach s0 s →
  reach s0 (progress_check c attempts found new_tweets s).2.
Proof.
  intros Hs. unfold progress_check.
  repeat case_match; cbn [snd]; by constructor.
Qed.

Lemma reach_tail_checks s0 attempts found ev s :
  reach s0 s → reach s0 (self (final (tail_checks attempts found ev s))).
Proof.
  intros Hs. unfold tail_checks.
  repeat case_match; cbn [final self]; by repeat apply reach_listen.
Qed.

Lemma reach_body ev l :
  reach (self l) (self (final (body c resume_from_tweet_id existing ev l))).
Proof.
  unfold body.
  pose proof (reach_listen (self l) (self l) (arrivals (on_scroll ev))
                (reach_refl _)) as H1.
  destruct (raised (on_scroll ev)); [done|].
  pose proof (reach_overlap_check (self l) (resume_point_found l)
    (len (listen (arrivals (on_scroll ev)) (self l)) - len (self l)) _ H1) as H2.
  destruct (overlap_check _ _ _ _ _ _) as [[found new_tweets] s2].
  cbn [snd] in H2.
  pose proof (reach_progress_check (self l) (scroll_attempts l + 1) found
    new_tweets _ H2) as H3.
  destruct (progress_check _ _ _ _ _) as [[r|] s3]; cbn [snd] in H3; [done|].
  destruct (found && limit_reached s3); [done|].
  by apply reach_tail_checks.
Qed.

Lemma reach_while passes env l :
  reach (self l)
    (self (final (while c resume_from_tweet_id existing passes env l))).
Proof.
  revert l. induction passes as [|passes IH]; intros l; [constructor|].
  cbn [while].
  pose proof (reach_body (env (scroll_attempts l + 1)) l) as Hb.
  destruct (body _ _ _ _ _) as [l'|r l'|e l']; cbn [final] in *; [|done..].
  eapply reach_trans; [exact Hb | apply IH].
Qed.

Lemma reach_scroll_timeline env s :
  reach s
    (self (final (_scroll_timeline c resume_from_tweet_id existing env s))).
Proof.
  unfold _scroll_timeline.
  eapply reach_trans; [|apply reach_while]. cbn [self].
  apply reach_count, reach_refl.
Qed.

End Pass.

(** What a session returns, and the state it leaves. *)
Lemma scrape_user_tweets_session c env username resume max_tweets existing s :
  match scrape_user_tweets c env username resume max_tweets existing s with
  | (Raises _, s') => s' = s ∧ page s = false
  | (Returns (Scraped _ ts n), s') =>
      reach (prepare max_tweets existing s) s' ∧ ts = all_tweets s' ∧ n = length ts
  | (Returns (ScrapeError e ts), s') =>
      reach (prepare max_tweets existing s) s'
      ∧ (if reports_missing env then e = "Account not found" ∧ ts = []
         else ts = all_tweets s')
  end.
Proof.
  unfold scrape_user_tweets, reports_missing.
  destruct (page s); cbn [negb]; [|done].
  set (s0 := prepare max_tweets existing s).
  pose proof (reach_listen s0 s0 (arrivals (on_goto env)) (reach_refl _)) as H1.
  destruct (raised (on_goto env)) as [e|].
  { rewrite (bool_decide_eq_false_2 (Some e = None)) by done. by auto. }
  rewrite (bool_decide_eq_true_2 (@None string = None) eq_refl). cbn [andb].
  pose proof (reach_listen s0 _ (arrivals (on_account_check env)) H1) as H2.
  destruct (bool_decide _ && account_missing env) eqn:Hmiss; [by auto|].
  pose proof (reach_listen s0 _ (arrivals (on_wait_for_tweets env)) H2) as H3.
  match goal with
  | |- context [_scroll_timeline ?c ?r ?e ?env ?s] =>
      pose proof (reach_scroll_timeline c r e env s) as H4;
      destruct (_scroll_timeline c r e env s) as [l|r' l|e' l]
  end; cbn [final] in H4; split; auto; by eapply reach_trans.
Qed.

(** *** Invariants of a session *)

Lemma reach_fields s0 s :
  reach s0 s →
  existing_tweet_ids s = existing_tweet_ids s0
  ∧ max_tweets_per_session s = max_tweets_per_session s0
  ∧ page s = page s0.
Proof.
  induction 1 as [|s o _ IH|s _ IH|s n _ IH|s m _ IH]; try done.
  destruct o as [t|]; [|done]. unfold collect. by repeat case_match.
Qed.

Lemma collect_consistent s o : consistent s → consistent (collect s o).
Proof.
  intros [Hset Hnd]. destruct o as [t|]; [|done]. unfold collect.
  destruct (truthy (id t)); [|done]. case_bool_decide as Hnew; [|done].
  destruct (not_existing (id t) s); [|done].
  unfold consistent, append. cbn [all_tweets scraped_tweet_ids].
  rewrite fmap_app, list_to_set_app_L, <- Hset. cbn. split; [set_solver|].
  apply NoDup_app. split_and!; [done | | apply NoDup_singleton].
  intros x Hx ->%list_elem_of_singleton. apply Hnew. rewrite Hset.
  by apply elem_of_list_to_set.
Qed.

Lemma reach_consistent s0 s : reach s0 s → consistent s0 → consistent s.
Proof.
  induction 1 as [|s o _ IH|s _ IH|s n _ IH|s m _ IH]; intros H0; auto.
  - by apply collect_consistent, IH.
  - split; [done | constructor].
Qed.

Lemma in_session_consistent s : in_session s → consistent s.
Proof.
  intros (s0 & m & e & Hr). apply (reach_consistent _ _ Hr).
  split; [done | constructor].
Qed.

Lemma collect_only_new s o : only_new s → only_new (collect s o).
Proof.
  intros Hs. destruct o as [t|]; [|done]. unfold collect.
  destruct (truthy (id t)) eqn:Ht; [|done]. case_bool_decide; [|done].
  destruct (not_existing (id t) s) eqn:Hne; [|done].
  intros t'. unfold append. cbn [all_tweets existing_tweet_ids].
  intros [Hin| ->%list_elem_of_singleton]%elem_of_app; [by apply Hs|].
  split; [done|]. intros e He. unfold not_existing in Hne.
  rewrite He in Hne. by apply bool_decide_eq_true in Hne.
Qed.

Lemma reach_only_new s0 s : reach s0 s → only_new s0 → only_new s.
Proof.
  induction 1 as [|s o _ IH|s _ IH|s n _ IH|s m _ IH]; intros H0; auto.
  - by apply collect_only_new, IH.
  - intros t Ht. by apply not_elem_of_nil in Ht.
Qed.

Lemma in_session_only_new s : in_session s → only_new s.
Proof.
  intros (s0 & m & e & Hr). apply (reach_only_new _ _ Hr).
  intros t Ht. by apply not_elem_of_nil in Ht.
Qed.

(** *** What the parts of a pass leave unchanged *)

Lemma collect_log s o : log (collect s o) = log s.
Proof. destruct o as [t|]; [|done]. unfold collect. by repeat case_match. Qed.

Lemma listen_log entries s : log (listen entries s) = log s.
Proof.
  revert s. unfold listen. induction entries as [|o entries IH]; intros s; [done|].
  cbn [foldl]. by rewrite IH, collect_log.
Qed.

Lemma listen_counter entries s :
  scroll_attempts_without_new (listen entries s) = scroll_attempts_without_new s.
Proof.
  revert s. unfold listen. induction entries as [|o entries IH]; intros s; [done|].
  cbn [foldl]. rewrite IH. destruct o as [t|]; [|done].
  unfold collect. by repeat case_match.
Qed.


Lemma listen_length entries s :
  (length (all_tweets s) ≤ length (all_tweets (listen entries s)))%nat.
Proof.
  revert s. unfold listen. induction entries as [|o entries IH]; intros s; [done|].
  cbn [foldl]. etrans; [|apply IH]. destruct o as [t|]; [|done].
  unfold collect. repeat case_match; try done.
  unfold append. cbn [all_tweets]. rewrite length_app. lia.
Qed.

Section PassFacts.
Context (c : config) (resume_from_tweet_id : option string)
        (existing : gset string).

Lemma progress_check_stop attempts found new_tweets s r s' :
  progress_check c attempts found new_tweets s = (Some r, s') →
  r = NoTweetsExtracted ∨ r = ResumePointNotFound ∨ r = NoNewTweets.
Proof. unfold progress_check. repeat case_match; naive_solver. Qed.

Lemma progress_check_state attempts found new_tweets s :
  let s' := (progress_check c attempts found new_tweets s).2 in
  all_tweets s' = all_tweets s ∧ log s' = log s
  ∧ max_tweets_per_session s' = max_tweets_per_session s.
Proof. unfold progress_check. by repeat case_match. Qed.

Lemma tail_checks_final attempts found ev s :
  let l' := final (tail_checks attempts found ev s) in
  scroll_attempts l' = attempts ∧ resume_point_found l' = found
  ∧ log (self l') = log s.
Proof.
  unfold tail_checks.
  repeat case_match; cbn [final scroll_attempts resume_point_found self];
    by rewrite ?listen_log.
Qed.

Lemma tail_checks_stop attempts found ev s r l' :
  tail_checks attempts found ev s = Break r l' →
  r = BottomOfTimeline ∨ r = TenMinutesNoTweets.
Proof. unfold tail_checks. repeat case_match; naive_solver. Qed.

Lemma tail_checks_next attempts found ev s l' :
  tail_checks attempts found ev s = Next l' →
  arrivals (on_bottom ev) = [] → arrivals (on_refresh ev) = [] →
  self l' = s.
Proof.
  unfold tail_checks. intros H Hb Hr. rewrite Hb, Hr in H. cbn in H.
  repeat case_match; naive_solver.
Qed.

(** The overlap check, when it fires (lines 774-786): the buffer and the
    dedup set are cleared, the resume point is confirmed, the counter and
    the count of new tweets are reset, and one line is logged. *)
Lemma overlap_check_fires new_tweets s :
  opt_truthy resume_from_tweet_id = true → existing ≠ ∅ →
  overlap_threshold c ≤ overlap_count existing s →
  ∃ s', overlap_check c resume_from_tweet_id existing false new_tweets s
        = (true, 0, s')
    ∧ all_tweets s' = [] ∧ scraped_tweet_ids s' = ∅
    ∧ scroll_attempts_without_new s' = 0
    ∧ log s' = log s ++ [FoundOverlapZone (overlap_count existing s)
                           (length (all_tweets s))].
Proof.
  intros Hr He Hn. unfold overlap_check. rewrite Hr. cbn [andb negb].
  rewrite bool_decide_true by done.
  destruct (Z.leb_spec (overlap_threshold c) (overlap_count existing s)); [|lia].
  by eexists.
Qed.

(** It does nothing otherwise. *)
Lemma overlap_check_idle found new_tweets s :
  overlap_count existing s < overlap_threshold c →
  overlap_check c resume_from_tweet_id existing found new_tweets s
  = (found, new_tweets, s).
Proof.
  intros Hn. unfold overlap_check.
  destruct (Z.leb_spec (overlap_threshold c) (overlap_count existing s)); [lia|].
  by case_match.
Qed.

Lemma overlap_check_found found new_tweets s :
  found = true →
  overlap_check c resume_from_tweet_id existing found new_tweets s
  = (found, new_tweets, s).
Proof.
  intros ->. unfold overlap_check. by rewrite andb_false_r.
Qed.

(** The buffer of a session holds no existing id: the overlap count of
    the set the listener filters with is zero. *)
Lemma overlap_count_zero s :
  only_new s → existing_tweet_ids s = Some existing →
  overlap_count existing s = 0.
Proof.
  intros Hnew He. unfold overlap_count.
  assert (Forall (λ t, id t ∉ existing) (all_tweets s)) as Hall.
  { apply Forall_forall. intros t Ht. by apply (Hnew t Ht). }
  induction Hall as [|t ts Ht _ IH]; [done|]. by rewrite filter_cons_False.
Qed.

(** *** A resume session never confirms its resume point *)

Lemma body_never_confirms ev l :
  1 ≤ overlap_threshold c → resume_point_found l = false →
  only_new (self l) → existing_tweet_ids (self l) = Some existing →
  let l' := final (body c resume_from_tweet_id existing ev l) in
  resume_point_found l' = false ∧ log (self l') = log (self l).
Proof.
  intros Hth Hf Hnew He. unfold body. rewrite Hf.
  set (s1 := listen (arrivals (on_scroll ev)) (self l)).
  assert (reach (self l) s1) as Hr by apply reach_listen, reach_refl.
  assert (log s1 = log (self l)) as Hlog by apply listen_log.
  destruct (raised (on_scroll ev)); [done|].
  rewrite overlap_check_idle; last first.
  { rewrite overlap_count_zero; [lia | by eapply reach_only_new |].
    by rewrite (proj1 (reach_fields _ _ Hr)). }
  pose proof (progress_check_state (scroll_attempts l + 1) false
                (len s1 - len (self l)) s1) as (_ & Hlog' & _).
  destruct (progress_check _ _ _ _ _) as [[r|] s3]; cbn [snd] in Hlog'.
  - cbn. by rewrite Hlog'.
  - cbn [andb].
    destruct (tail_checks_final (scroll_attempts l + 1) false ev s3)
      as (_ & ? & ?).
    split; [done | congruence].
Qed.

Lemma while_never_confirms passes env l :
  1 ≤ overlap_threshold c → resume_point_found l = false →
  only_new (self l) → existing_tweet_ids (self l) = Some existing →
  let l' := final (while c resume_from_tweet_id existing passes env l) in
  resume_point_found l' = false ∧ log (self l') = log (self l).
Proof.
  intros Hth. revert l.
  induction passes as [|passes IH]; intros l Hf Hnew He; [done|].
  cbn [while].
  pose proof (body_never_confirms (env (scroll_attempts l + 1)) l Hth Hf Hnew He)
    as [Hf' Hlog].
  pose proof (reach_body c resume_from_tweet_id existing
                (env (scroll_attempts l + 1)) l) as Hr.
  destruct (body _ _ _ _ _) as [l'|r l'|e l']; cbn [final] in *; [|done..].
  destruct (IH l') as [? ?]; [done | by eapply reach_only_new | |].
  - by rewrite (proj1 (reach_fields _ _ Hr)).
  - split; [done | congruence].
Qed.

(** *** The session limit *)

Lemma body_session_limit ev l l' :
  body c resume_from_tweet_id existing ev l = Break SessionLimit l' →
  resume_point_found l' = true ∧ limit_reached (self l') = true
  ∧ (resume_point_found l = true →
     all_tweets (self l') = all_tweets (listen (arrivals (on_scroll ev)) (self l))).
Proof.
  unfold body. destruct (raised (on_scroll ev)); [done|].
  pose proof (overlap_check_found (resume_point_found l)
    (len (listen (arrivals (on_scroll ev)) (self l)) - len (self l))
    (listen (arrivals (on_scroll ev)) (self l))) as Hov.
  destruct (overlap_check _ _ _ _ _ _) as [[found new_tweets] s2].
  pose proof (progress_check_state (scroll_attempts l + 1) found new_tweets s2)
    as (Hbuf & _).
  destruct (progress_check _ _ _ _ _) as [[r|] s3] eqn:Hp; cbn [snd] in Hbuf.
  - intros [= -> <-]. apply progress_check_stop in Hp. naive_solver.
  - destruct (found && limit_reached s3) eqn:Hlim.
    + intros [= <-]. apply andb_true_iff in Hlim as [Hfound Hlim].
      cbn [resume_point_found self]. split_and!; [done..|].
      intros Hf. specialize (Hov Hf). injection Hov as _ _ <-. done.
    + intros Ht. apply tail_checks_stop in Ht. naive_solver.
Qed.

Lemma while_session_limit passes env l l' :
  while c resume_from_tweet_id existing passes env l = Break SessionLimit l' →
  resume_point_found l' = true ∧ limit_reached (self l') = true.
Proof.
  revert l. induction passes as [|passes IH]; intros l; [done|].
  cbn [while].
  destruct (body _ _ _ _ _) as [l1|r l1|e l1] eqn:Hb; [apply IH| |done].
  intros [= -> ->]. by apply body_session_limit in Hb as (? & ? & _).
Qed.

Lemma body_next_below_limit ev l l' :
  body c resume_from_tweet_id existing ev l = Next l' →
  arrivals (on_bottom ev) = [] → arrivals (on_refresh ev) = [] →
  resume_point_found l' = true → limit_reached (self l') = false.
Proof.
  unfold body. destruct (raised (on_scroll ev)); [done|].
  destruct (overlap_check _ _ _ _ _ _) as [[found new_tweets] s2].
  destruct (progress_check _ _ _ _ _) as [[r|] s3]; [done|].
  destruct (found && limit_reached s3) eqn:Hlim; [done|].
  intros Ht Hb Hr.
  pose proof (tail_checks_final (scroll_attempts l + 1) found ev s3) as (_ & Hf & _).
  rewrite Ht in Hf. cbn [final] in Hf.
  apply tail_checks_next in Ht; [|done..]. rewrite Ht, Hf.
  intros ->. done.
Qed.

(** *** An extractor that yields nothing *)








End PassFacts.

End ScrollLoop.

(** ** The properties of the scroll loop *)

Section ScrollProperties.
Import PlaywrightScraper.

Lemma while_not_next c resume existing passes env l l' :
  while c resume existing passes env l ≠ Next l'.
Proof.
  revert l. induction passes as [|passes IH]; intros l; [done|].
  cbn [while]. destruct (body _ _ _ _ _); [apply IH | done..].
Qed.

(** With a threshold of at least 1, a session whose listener filters with
    the set the loop counts overlaps in never confirms its resume point:
    the overlap line is never logged. *)
Lemma resume_never_confirmed c resume existing env s :
  1 ≤ overlap_threshold c → opt_truthy resume = true →
  in_session s → existing_tweet_ids s = Some existing →
  let l := final (_scroll_timeline c resume existing env s) in
  resume_point_found l = false ∧ log (self l) = log s.
Proof.
  intros Hth Hres (s0 & m & e & Hs) He. unfold _scroll_timeline.
  rewrite Hres. cbn [negb].
  apply (while_never_confirms c resume existing); [done | done | | done].
  apply in_session_only_new. exists s0, m, e. by constructor.
Qed.

(** C1, the run of the design document's scenario: the duplicates of the
    existing ids never enter the buffer, so the overlap count stays 0;
    the buffer is never cleared, the resume point is never confirmed, and
    the loop gives up after 100 passes without a new tweet, with the
    items 51..60 in the buffer. *)
Theorem overlap_threshold_run :
  ∃ l, _scroll_timeline overlap_config (Some "1") overlap_existing
         overlap_feed overlap_start = Break ResumePointNotFound l
    ∧ scroll_attempts l = 101
    ∧ resume_point_found l = false
    ∧ log (self l) = []
    ∧ id <$> all_tweets (self l) = ids 51 10.
Proof.
  exists (final (_scroll_timeline overlap_config (Some "1") overlap_existing
                   overlap_feed overlap_start)).
  split_and!; vm_compute; reflexivity.
Qed.

(** C4, counterexample: with threshold 0 the resume point is confirmed in
    the first pass, and the item 30 that the feed shows afterwards is
    collected although the oldest archived id is 10. *)
Lemma resume_monotonicity_counterexample :
  ¬ resume_monotonicity_as_stated late_config "10" late_existing late_feed
      late_start.
Proof.
  intros H. unfold resume_monotonicity_as_stated in H.
  assert (resume_point_found
            (final (_scroll_timeline late_config (Some "10") late_existing
                      late_feed late_start)) = true) as Hfound
    by (vm_compute; reflexivity).
  specialize (H Hfound (mk "30" "")).
  assert ((id_key (mk "30" "") < Py.int "10")%N → False) as Hno
    by (vm_compute; discriminate).
  apply Hno, H. vm_compute. constructor.
Qed.

(** C4, as amended: whatever a session returns, also after an error, has
    an id and has none of the existing ids; the loop compares no id with
    the oldest archived one. *)
Theorem session_returns_only_new c env username resume max_tweets e s :
  match scrape_user_tweets c env username resume max_tweets (Some e) s with
  | (Returns (Scraped _ ts _), _) | (Returns (ScrapeError _ ts), _) =>
      ∀ t, t ∈ ts → truthy (id t) = true ∧ id t ∉ e
  | (Raises _, _) => True
  end.
Proof.
  pose proof (scrape_user_tweets_session c env username resume max_tweets
                (Some e) s) as Hs.
  assert (∀ s', reach (prepare max_tweets (Some e) s) s' →
            ∀ t, t ∈ all_tweets s' → truthy (id t) = true ∧ id t ∉ e) as Hnew.
  { intros s' Hr t Ht.
    assert (only_new s') as Hn.
    { apply (reach_only_new _ _ Hr). intros t' Ht'. by apply not_elem_of_nil in Ht'. }
    destruct (Hn t Ht) as [? He]. split; [done|]. apply He.
    by rewrite (proj1 (reach_fields _ _ Hr)). }
  destruct (scrape_user_tweets _ _ _ _ _ _ _) as [[[u ts n|err ts]|err] s'];
    [| |done].
  - destruct Hs as (Hr & -> & _). by apply Hnew.
  - destruct Hs as (Hr & Hts). destruct (reports_missing env).
    + destruct Hts as [_ ->]. intros t Ht. by apply not_elem_of_nil in Ht.
    + rewrite Hts. by apply Hnew.
Qed.

(** C4, as amended, at the resume over 10, 20 that collects 30. *)
Lemma session_returns_only_new_witness :
  truthy (id (mk "30" "")) = true ∧ id (mk "30" "") ∉ late_existing.
Proof.
  pose proof (session_returns_only_new late_config late_session "user"
                (Some "10") None late_existing fresh_scraper) as H.
  destruct (scrape_user_tweets _ _ _ _ _ _ _) as [[[u ts n|e ts]|e] s'] eqn:Hrun;
    vm_compute in Hrun; [|discriminate..].
  injection Hrun as _ <- _ _. apply H. constructor.
Defined.

(** C6, counterexample: with a limit of 10 and a first response of 12
    items the loop stops after its first pass with 12 items. *)
Lemma limit_exceeded_counterexample :
  ∃ l, _scroll_timeline overlap_config None ∅ burst_feed burst_start
       = Break SessionLimit l
    ∧ max_tweets_per_session (self l) = Some 10
    ∧ scroll_attempts l = 1
    ∧ length (all_tweets (self l)) = 12%nat.
Proof.
  exists (final (_scroll_timeline overlap_config None ∅ burst_feed burst_start)).
  split_and!; vm_compute; reflexivity.
Qed.

(** C6, as amended: when the loop stops for the session limit, the resume
    point is confirmed (or none was needed) and the buffer holds at least
    the limit; the pass that reached the limit keeps all it appended; and
    a pass is followed by another one only if, late arrivals apart, the
    buffer is below the limit. *)
Theorem limit_stops_loop c resume existing env s :
  (∀ l, _scroll_timeline c resume existing env s = Break SessionLimit l →
        resume_point_found l = true
        ∧ ∃ m, max_tweets_per_session s = Some m ∧ m ≠ 0 ∧ m ≤ len (self l))
  ∧ (∀ ev l l', body c resume existing ev l = Break SessionLimit l' →
        resume_point_found l = true →
        all_tweets (self l')
        = all_tweets (listen (arrivals (on_scroll ev)) (self l)))
  ∧ (∀ ev l l', body c resume existing ev l = Next l' →
        arrivals (on_bottom ev) = [] → arrivals (on_refresh ev) = [] →
        resume_point_found l' = true → limit_reached (self l') = false).
Proof.
  split_and!.
  - intros l Hl.
    pose proof (reach_scroll_timeline c resume existing env s) as Hr.
    rewrite Hl in Hr. cbn [final] in Hr.
    apply reach_fields in Hr as (_ & Hmax & _).
    apply while_session_limit in Hl as [Hf Hlim]. split; [done|].
    unfold limit_reached in Hlim. rewrite Hmax in Hlim.
    destruct (max_tweets_per_session s) as [m|]; [|done].
    apply andb_true_iff in Hlim as [Hm Hle]. exists m.
    apply bool_decide_eq_true in Hm. apply Z.leb_le in Hle. done.
  - intros ev l l' Hb. by apply body_session_limit in Hb as (_ & _ & ?).
  - intros ev l l'. apply body_next_below_limit.
Qed.

(** C6, as amended, at the session of limit 10 that receives 12 items. *)
Lemma limit_stops_loop_witness :
  ∃ m, max_tweets_per_session burst_start = Some m ∧ m ≠ 0
       ∧ m ≤ len (self (final (_scroll_timeline overlap_config None ∅
                                 burst_feed burst_start))).
Proof.
  destruct (limit_stops_loop overlap_config None ∅ burst_feed burst_start)
    as [H _].
  apply (H (final (_scroll_timeline overlap_config None ∅ burst_feed burst_start))).
  vm_compute. reflexivity.
Defined.




(** C10: throughout a session the dedup set is the set of the ids in the
    buffer and no id is in the buffer twice: in every state a session
    reaches, after any number of passes of the scroll loop, and in the
    state every call of [scrape_user_tweets] that finds the browser
    leaves. *)
Theorem dedup_set_is_buffer_ids :
  (∀ s, in_session s → consistent s)
  ∧ (∀ c resume existing passes env l,
       in_session (self l) →
       consistent (self (final (while c resume existing passes env l))))
  ∧ (∀ c env username resume max_tweets existing s,
       match scrape_user_tweets c env username resume max_tweets existing s with
       | (Returns _, s') => in_session s' ∧ consistent s'
       | (Raises _, s') => s' = s ∧ page s = false
       end).
Proof.
  split_and!; [apply in_session_consistent | |].
  - intros c resume existing passes env l (s0 & m & e & Hr).
    apply in_session_consistent. exists s0, m, e.
    eapply reach_trans; [exact Hr | apply reach_while].
  - intros c env username resume max_tweets existing s.
    pose proof (scrape_user_tweets_session c env username resume max_tweets
                  existing s) as Hs.
    destruct (scrape_user_tweets _ _ _ _ _ _ _) as [[[u ts n|err ts]|err] s'];
      [| |done].
    + destruct Hs as (Hr & _).
      assert (in_session s') by by exists s, max_tweets, existing.
      split; [done | by apply in_session_consistent].
    + destruct Hs as (Hr & _).
      assert (in_session s') by by exists s, max_tweets, existing.
      split; [done | by apply in_session_consistent].
Qed.

(** C10 at the state after the first item of a session. *)
Lemma dedup_set_is_buffer_ids_witness :
  consistent (collect (prepare None None fresh_scraper) (item "7")).
Proof.
  apply (proj1 dedup_set_is_buffer_ids).
  exists fresh_scraper, None, None. apply reach_collect, reach_refl.
Defined.

End ScrollProperties.

(** ** The orchestrator *)

Section Orchestrator.
Import PlaywrightScraper XScraper.



Lemma session_state_is_archive b : consistent b → only_new b → is_archive (all_tweets b).
Proof.
  intros [_ Hnd] Hnew. split; [done|]. apply Forall_forall.
  intros t Ht. by apply (Hnew t Ht).
Qed.

Lemma login_effect browser_ok ok w :
  let r := login browser_ok ok w in
  files r.2 = files w ∧ writes r.2 = writes w
  ∧ (if r.1 then is_Some (browser r.2)
     else ok = false ∨ ∃ b, browser r.2 = Some b ∧ page b = false).
Proof.
  cbv zeta. unfold login. destruct (browser w) as [b|] eqn:Hb.
  - destruct (logged_in w); cbn [fst snd]; [by rewrite Hb|].
    destruct (page b) eqn:Hp; cbn [fst snd]; [|by eauto 6].
    destruct ok; rewrite ?Hb; by auto.
  - destruct browser_ok, ok; cbn; by eauto 6.
Qed.

Lemma files_eta (d : disk) : Disk (checkpoint_file d) (tweets_file d) = d.
Proof. by destruct d. Qed.

(** What [merge_and_save] returns and writes. *)
Lemma merge_and_save_effect env previous existing new w :
  let all := merged existing new in
  let c := make_checkpoint previous all new in
  let a := Archive (CheckpointManager.sorted_tweets all)
             (length (CheckpointManager.sorted_tweets all))
             (session_count c) (oldest_tweet_date c) in
  let r := merge_and_save env previous existing new w in
  browser r.2 = browser w
  ∧ (all = [] ∧ r = (Returns all, w)
     ∨ all ≠ [] ∧ (∃ e, save_dir_error env = Some e ∧ r = (Raises e, w))
     ∨ all ≠ [] ∧ save_dir_error env = None ∧ r.1 = Returns all
       ∧ writes r.2 = writes w ++ session_writes env c a
       ∧ checkpoint_file (files r.2)
         = after_write (checkpoint_write_ok env) (checkpoint_truncated env) c
             (checkpoint_file (files w))
       ∧ tweets_file (files r.2)
         = after_write (archive_write_ok env) (archive_truncated env) a
             (tweets_file (files w))).
Proof.
  unfold merge_and_save. fold (merged existing new).
  destruct (merged existing new) as [|t all] eqn:Hall; [by auto|].
  unfold save_checkpoint. destruct (save_dir_error env) as [e|].
  { split; [done|]. right; left. split; [done|]. by exists e. }
  cbn [fst snd]. unfold save_all_tweets, session_writes.
  cbn [files writes browser checkpoint_file tweets_file].
  rewrite <- app_assoc. split; [done|]. right; right. by split_and!.
Qed.

(** The ways a call ends, with what it leaves behind: it raises before
    the session; the session returns the error dictionary; or the session
    returns its tweets, and the call ends as [merge_and_save] does. *)
Lemma scrape_user_tweets_cases cfg env username resume max_tweets w :
  let o := (scrape_user_tweets cfg env username resume max_tweets w).1 in
  let w' := (scrape_user_tweets cfg env username resume max_tweets w).2 in
  let existing := existing_of resume w in
  (∃ e, o = Raises e ∧ files w' = files w ∧ writes w' = writes w
     ∧ (resume = true
        ∧ (load_dir_error env = Some e ∨ load_tweets_error env = Some e)
        ∨ login_ok env = false
        ∨ ∃ b, browser w' = Some b ∧ page b = false))
  ∨ (∃ e ts b, o = Returns (Error e ts) ∧ browser w' = Some b
       ∧ (if reports_missing (session env)
          then e = "Account not found" ∧ ts = []
          else ts = all_tweets b)
       ∧ files w' = files w ∧ writes w' = writes w)
  ∨ (∃ b w0, browser w' = Some b ∧ consistent b ∧ only_new b
       ∧ files w0 = files w ∧ writes w0 = writes w
       ∧ (o, w') = (match merge_and_save env
                            (if resume then checkpoint_file (files w) else None)
                            existing (all_tweets b) w0 with
                    | (Raises e, w1) => (Raises e, w1)
                    | (Returns all, w1) =>
                        (Returns (Result username (length all)
                                    (_apply_filters (filters cfg) all)
                                    (length (_apply_filters (filters cfg) all))),
                         w1)
                    end)
       ∧ browser w0 = Some b).
Proof.
  unfold scrape_user_tweets, existing_of.
  destruct (if resume then load_dir_error env else None) as [e|] eqn:Hload.
  { left. exists e. cbn. split_and!; [done..|]. left.
    destruct resume; [by auto | done]. }
  set (previous := if resume then checkpoint_file (files w) else None).
  destruct (match previous with Some _ => load_tweets_error env | None => None end)
    as [e|] eqn:Hload'.
  { left. exists e. cbn. split_and!; [done..|]. left.
    subst previous. destruct resume; [|done].
    destruct (checkpoint_file (files w)); [by auto | done]. }
  set (existing := match previous with Some _ => _ | None => [] end).
  set (ready := if bool_decide (browser w = None) || negb (logged_in w)
                then login (browser_ok env) (login_ok env) w else (true, w)).
  assert (files ready.2 = files w ∧ writes ready.2 = writes w
          ∧ (if ready.1 then is_Some (browser ready.2)
             else login_ok env = false
                  ∨ ∃ b, browser ready.2 = Some b ∧ page b = false))
    as (Hf & Hw & Hready).
  { subst ready. destruct (_ || _) eqn:Hor; [apply login_effect|].
    apply orb_false_iff in Hor as [Hb _]. apply bool_decide_eq_false in Hb.
    split_and!; [done..|]. cbn. by destruct (browser w). }
  destruct ready as [ok w1]. cbn [fst snd] in Hf, Hw, Hready.
  destruct ok; cbn [negb].
  2:{ left. eexists. cbn. split_and!; [done..|]. by right. }
  destruct Hready as [b Hb]. rewrite Hb.
  match goal with
  | |- context [PlaywrightScraper.scrape_user_tweets ?c ?e ?u ?r ?m ?x ?b] =>
      pose proof (scrape_user_tweets_session c e u r m x b) as Hs;
      destruct (PlaywrightScraper.scrape_user_tweets c e u r m x b)
        as [[[u' ts n|err ts]|err] b']
  end.
  - right; right. destruct Hs as (Hr & -> & _).
    assert (in_session b') as Hin by by eexists _, _, _.
    exists b', (with_browser b' w1). cbn [after_scrape].
    pose proof (merge_and_save_effect env previous existing (all_tweets b')
                  (with_browser b' w1)) as (Hb' & _).
    destruct (merge_and_save _ _ _ _ _) as [[all|e] w2]; cbn [fst snd] in *;
      split_and!; try done;
      first [by apply in_session_consistent | by apply in_session_only_new].
  - right; left. destruct Hs as (Hr & Hts). by exists err, ts, b'.
  - left. destruct Hs as [-> Hpage]. eexists. cbn. split_and!; [done..|].
    right; right. by exists b.
Qed.


(** What a call wrote: nothing, unless it returns the result of a
    session that left something to save. *)
Lemma scrape_user_tweets_writes cfg env username resume max_tweets w :
  let o := (scrape_user_tweets cfg env username resume max_tweets w).1 in
  let w' := (scrape_user_tweets cfg env username resume max_tweets w).2 in
  files w' = files w ∧ writes w' = writes w
  ∧ (∀ u n ts k, o = Returns (Result u n ts k) → n = 0%nat)
  ∨ ∃ b, browser w' = Some b ∧ consistent b ∧ only_new b
      ∧ let all := merged (existing_of resume w) (all_tweets b) in
        let c := make_checkpoint
                   (if resume then checkpoint_file (files w) else None)
                   all (all_tweets b) in
        let a := Archive (CheckpointManager.sorted_tweets all)
                   (length (CheckpointManager.sorted_tweets all))
                   (session_count c) (oldest_tweet_date c) in
        all ≠ [] ∧ is_archive all
        ∧ o = Returns (Result username (length all)
                         (_apply_filters (filters cfg) all)
                         (length (_apply_filters (filters cfg) all)))
        ∧ writes w' = writes w ++ session_writes env c a
        ∧ checkpoint_file (files w')
          = after_write (checkpoint_write_ok env) (checkpoint_truncated env) c
              (checkpoint_file (files w))
        ∧ tweets_file (files w')
          = after_write (archive_write_ok env) (archive_truncated env) a
              (tweets_file (files w)).
Proof.
  destruct (scrape_user_tweets_cases cfg env username resume max_tweets w)
    as [(e & Ho & ? & ? & _)|[(e & ts & b & Ho & _ & _ & ? & ?)
       |(b & w0 & Hb & Hcons & Hnew & Hf & Hw & Heq & Hb0)]];
    [left; split_and!; [done..|]; intros u n ts' k; rewrite Ho; done..|].
  cbn zeta.
  destruct (scrape_user_tweets cfg env username resume max_tweets w) as [o w'].
  cbn [fst snd] in *.
  pose proof (merge_and_save_effect env
    (if resume then checkpoint_file (files w) else None)
    (existing_of resume w) (all_tweets b) w0) as (_ & Heff).
  destruct (merge_and_save _ _ _ _ _) as [o1 w1]. cbn [fst snd] in Heff.
  destruct Heff as [[Hall [= -> ->]]|[(Hne & e & He & [= -> ->])
                                     |(Hne & He & -> & Hwr & Hcp & Har)]];
    injection Heq as -> ->.
  - left. split_and!; [done..|]. intros u n ts k [= _ <- _ _]. by rewrite Hall.
  - left. by split_and!.
  - right. exists b. rewrite Hf in Hcp, Har. rewrite Hw in Hwr.
    split_and!; try done.
    unfold merged. destruct (existing_of resume w);
      [by apply session_state_is_archive | apply merge_is_archive].
Qed.

(** C2, counterexample: a fresh crawl of three items saves the checkpoint
    and then the archive; and when the archive write fails, the saved
    checkpoint counts three tweets while no archive file exists. *)
Lemma archive_before_checkpoint_counterexample :
  (∃ c a, writes (three_run true true).2 = [CheckpointWritten c; ArchiveWritten a])
  ∧ ¬ checkpoint_backed (files (three_run true false).2).
Proof.
  split.
  - eexists _, _. vm_compute. reflexivity.
  - vm_compute. intros (a & Ha & _). discriminate.
Qed.

(** C2, as amended.  Once the scraper has returned, a successful session
    that leaves at least one tweet to save makes the orchestrator create
    the data directory (if that fails, the call raises and nothing is
    written) and then attempt two writes: the checkpoint of the merged
    list first, the archive, the merged list sorted, second.  A write that
    fails is swallowed; it leaves its file as it was when [open] failed,
    and unreadable when the failure came after [open].  A session that
    returns the error dictionary or leaves nothing to save writes nothing.
    So a call that returns its result with at least one tweet has
    attempted exactly these two writes, and every other call has written
    nothing. *)
Theorem checkpoint_saved_before_archive cfg env username :
  (∀ previous existing scrape_result w,
     let r := after_scrape cfg env username previous existing scrape_result w in
     match scrape_result with
     | ScrapeError e ts => r = (Returns (Error e ts), w)
     | Scraped _ new _ =>
         let all := merged existing new in
         let c := make_checkpoint previous all new in
         let a := Archive (CheckpointManager.sorted_tweets all)
                    (length (CheckpointManager.sorted_tweets all))
                    (session_count c) (oldest_tweet_date c) in
         match all, save_dir_error env with
         | [], _ => r = (Returns (Result username 0 [] 0), w)
         | _ :: _, Some e => r = (Raises e, w)
         | _ :: _, None =>
             r.1 = Returns (Result username (length all)
                              (_apply_filters (filters cfg) all)
                              (length (_apply_filters (filters cfg) all)))
             ∧ writes r.2 = writes w ++ session_writes env c a
             ∧ checkpoint_file (files r.2)
               = after_write (checkpoint_write_ok env) (checkpoint_truncated env)
                   c (checkpoint_file (files w))
             ∧ tweets_file (files r.2)
               = after_write (archive_write_ok env) (archive_truncated env)
                   a (tweets_file (files w))
         end
     end)
  ∧ ∀ resume max_tweets w,
      let o := (scrape_user_tweets cfg env username resume max_tweets w).1 in
      let w' := (scrape_user_tweets cfg env username resume max_tweets w).2 in
      match o with
      | Returns (Result _ (S _ as n) _ _) =>
          ∃ b, browser w' = Some b
            ∧ let all := merged (existing_of resume w) (all_tweets b) in
              let c := make_checkpoint
                         (if resume then checkpoint_file (files w) else None)
                         all (all_tweets b) in
              let a := Archive (CheckpointManager.sorted_tweets all)
                         (length (CheckpointManager.sorted_tweets all))
                         (session_count c) (oldest_tweet_date c) in
              n = length all
              ∧ total_tweets c = length all
              ∧ tweets a ≡ₚ all
              ∧ writes w' = writes w ++ session_writes env c a
              ∧ checkpoint_file (files w')
                = after_write (checkpoint_write_ok env) (checkpoint_truncated env)
                    c (checkpoint_file (files w))
              ∧ tweets_file (files w')
                = after_write (archive_write_ok env) (archive_truncated env)
                    a (tweets_file (files w))
      | _ => files w' = files w ∧ writes w' = writes w
      end.
Proof.
  split.
  - intros previous existing scrape_result w. cbn zeta. unfold after_scrape.
    destruct scrape_result as [u new n|e ts]; [|done].
    pose proof (merge_and_save_effect env previous existing new w) as (_ & Heff).
    destruct (merge_and_save _ _ _ _ _) as [o1 w1]. cbn [fst snd] in Heff.
    destruct Heff as [[Hall [= -> ->]]|[(Hne & e & He & [= -> ->])
                                       |(Hne & He & Ho1 & Hw & Hc & Ha)]].
    + by rewrite Hall.
    + rewrite He. by destruct (merged existing new).
    + cbn [fst] in Ho1. subst o1. rewrite He.
      by destruct (merged existing new).
  - intros resume max_tweets w. cbn zeta.
    destruct (scrape_user_tweets_writes cfg env username resume max_tweets w)
      as [(Hf & Hw & Hn)|(b & Hb & _ & _ & Hne & Harch & Ho & Hw & Hc & Ha)].
    + destruct (scrape_user_tweets cfg env username resume max_tweets w).1
        as [[u [|n] ts k|e ts]|e]; try done.
      by specialize (Hn _ _ _ _ eq_refl).
    + rewrite Ho.
      destruct (merged (existing_of resume w) (all_tweets b)) as [|t all] eqn:Hall;
        [done|].
      cbn [length]. exists b. rewrite Hall. cbn zeta.
      split_and!; [done.. | | done | done | done].
      cbn [tweets]. rewrite sorted_tweets_of_archive by done.
      apply sorted_desc_perm.
Qed.

(** C7: the list [save_all_tweets] writes holds no id twice, nor does the
    result of a merge; so after any call the archive file is the one that
    was there before or holds no id twice. *)
Theorem archive_ids_unique :
  (∀ all_tweets, NoDup (id <$> CheckpointManager.sorted_tweets all_tweets))
  ∧ (∀ existing new, NoDup (id <$> CheckpointManager.merge_tweets existing new))
  ∧ (∀ cfg env username resume max_tweets w,
       match tweets_file
               (files (scrape_user_tweets cfg env username resume max_tweets w).2)
       with
       | Some a => tweets_file (files w) = Some a ∨ NoDup (id <$> tweets a)
       | None => True
       end).
Proof.
  split_and!.
  - apply sorted_tweets_NoDup.
  - intros existing new. by destruct (merge_is_archive existing new).
  - intros cfg env username resume max_tweets w.
    destruct (scrape_user_tweets_writes cfg env username resume max_tweets w)
      as [(-> & _)|(b & _ & _ & _ & _ & _ & _ & _ & _ & ->)].
    + destruct (tweets_file (files w)); auto.
    + unfold after_write.
      destruct (archive_write_ok env); cbn.
      * right. apply sorted_tweets_NoDup.
      * destruct (archive_truncated env); [done|].
        destruct (tweets_file (files w)); auto.
Qed.




End Orchestrator.

(** * Further properties *)

(** ** The archive that [save_all_tweets] writes *)

Section Archive.
Import CheckpointManager.
Implicit Types (d : Py.dict) (k : string) (t : tweet) (l : list tweet).

Lemma sorted_desc_of_sorted {A} (key : A → N) (l : list A) :
  StronglySorted (λ a b, (key b ≤ key a)%N) l → Py.sorted_desc key l = l.
Proof.
  induction 1 as [|x l Hl IH Hx]; [done|].
  cbn [Py.sorted_desc foldr]. fold (Py.sorted_desc key l). rewrite IH.
  destruct l as [|y l]; [done|]. cbn [Py.insert_desc].
  apply Forall_cons in Hx as [Hy _].
  destruct (N.ltb_spec (key x) (key y)); [lia | done].
Qed.

Lemma mem_get k d : Py.mem k d = bool_decide (Py.get k d ≠ None).
Proof.
  unfold Py.mem. apply bool_decide_ext. rewrite get_None. split.
  - intros Hin Hnot. by apply Hnot.
  - intros Hnn. destruct (decide (k ∈ d.*1)); [done|]. by destruct Hnn.
Qed.

Lemma get_put_new k d t :
  Py.get k (put_new d t)
  = match Py.get k d with
    | Some v => Some v
    | None => if truthy (id t) && bool_decide (id t = k) then Some t else None
    end.
Proof.
  unfold put_new. rewrite mem_get. destruct (truthy (id t)) eqn:Ht; cbn [andb].
  - case_bool_decide as Hin; cbn [negb].
    + destruct (Py.get k d) eqn:Hk; [done|].
      rewrite bool_decide_false; [done|]. intros Heq. by rewrite Heq in Hin.
    + rewrite get_set.
      case_decide as Heq; [by rewrite <- Heq, Hin, bool_decide_true|].
      rewrite bool_decide_false by done. by destruct (Py.get k d).
  - by destruct (Py.get k d).
Qed.

(** The dictionary of [save_all_tweets] holds, for every id, the first
    item of the list that has it. *)
Lemma get_foldl_put_new l d k :
  Py.get k (foldl put_new d l)
  = match Py.get k d with
    | Some v => Some v
    | None => if truthy k then first_with_id k l else None
    end.
Proof.
  revert d. induction l as [|t l IH]; intros d.
  - cbn. destruct (Py.get k d); [done | by destruct (truthy k)].
  - cbn [foldl]. rewrite IH, get_put_new. destruct (Py.get k d); [done|].
    unfold first_with_id. cbn [list_find].
    destruct (decide (id t = k)) as [<-|Hne].
    + rewrite bool_decide_true by done. by destruct (truthy (id t)).
    + rewrite bool_decide_false, andb_false_r by done.
      destruct (truthy k); [|done].
      by destruct (list_find _ l) as [[??]|].
Qed.

Lemma sorted_tweets_is_archive l : is_archive (sorted_tweets l).
Proof.
  split; [apply sorted_tweets_NoDup|].
  destruct (foldl_put_new_wf l []) as [Hk Hnd]; [constructor..|].
  unfold sorted_tweets. rewrite sorted_desc_perm.
  by destruct (keyed_is_archive _ Hk Hnd).
Qed.

(** X1: whatever list is saved, the archive written is sorted by numeric
    id, largest first; it holds an item exactly if the item has an id and
    is the first of the list with that id; so every id of the list is in
    the archive once. *)
Theorem archive_sorted_first_wins l :
  by_id_desc (sorted_tweets l)
  ∧ NoDup (id <$> sorted_tweets l)
  ∧ (∀ t, t ∈ sorted_tweets l
          ↔ truthy (id t) = true ∧ first_with_id (id t) l = Some t)
  ∧ (∀ k, k ∈ id <$> sorted_tweets l ↔ truthy k = true ∧ k ∈ id <$> l).
Proof.
  destruct (foldl_put_new_wf l []) as [Hk Hnd]; [constructor..|].
  assert (∀ t, t ∈ sorted_tweets l
               ↔ truthy (id t) = true ∧ first_with_id (id t) l = Some t) as Hmem.
  { intros t. unfold sorted_tweets. rewrite sorted_desc_perm.
    rewrite elem_values_get by done. split.
    - intros (k & Hget). rewrite get_foldl_put_new in Hget. cbn [Py.get] in Hget.
      destruct (truthy k) eqn:Htk; [|done].
      assert (id t = k) as <-; [|done].
      unfold first_with_id in Hget. destruct (list_find _ l) as [[i t']|] eqn:Hf;
        [|done]. injection Hget as ->. by apply list_find_Some in Hf as (_ & ? & _).
    - intros [Ht Hf]. exists (id t). rewrite get_foldl_put_new. cbn [Py.get].
      by rewrite Ht. }
  split_and!; [apply sorted_desc_sorted | apply sorted_tweets_NoDup | done |].
  intros k. rewrite !list_elem_of_fmap. split.
  - intros (t & -> & Ht). apply Hmem in Ht as [Htr Hf]. split; [done|].
    unfold first_with_id in Hf. destruct (list_find _ l) as [[i t']|] eqn:Hfind;
      [|done]. injection Hf as ->. apply list_find_Some in Hfind as (Hi & _).
    exists t. split; [done | by eapply list_elem_of_lookup_2].
  - intros [Htr (t & -> & Ht)].
    destruct (list_find (λ t', id t' = id t) l) as [[i t']|] eqn:Hfind.
    + pose proof Hfind as (_ & Heq & _)%list_find_Some.
      exists t'. split; [done|]. apply Hmem. rewrite Heq. split; [done|].
      unfold first_with_id. by rewrite Hfind.
    + apply list_find_None in Hfind. rewrite Forall_forall in Hfind.
      by destruct (Hfind t Ht).
Qed.

(** X2: saving an archive that was written by [save_all_tweets] writes it
    again as it is. *)
Theorem archive_resave l : sorted_tweets (sorted_tweets l) = sorted_tweets l.
Proof.
  rewrite sorted_tweets_of_archive by apply sorted_tweets_is_archive.
  apply sorted_desc_of_sorted. unfold sorted_tweets. apply sorted_desc_sorted.
Qed.

End Archive.

(** ** More on [merge_tweets] *)

Section MergeMore.
Import CheckpointManager.
Implicit Types (d : Py.dict) (k : string) (t : tweet) (l : list tweet).

Lemma pairs_of_values d : keyed d → (λ t, (id t, t)) <$> Py.values d = d.
Proof.
  unfold Py.values. induction 1 as [|[k v] d [Hid _] _ IH]; [done|].
  rewrite !fmap_cons. cbn [fst snd] in *. by rewrite Hid, IH.
Qed.

Lemma dict_of_archive l :
  is_archive l → foldl put [] l = (λ t, (id t, t)) <$> l.
Proof.
  intros Harch. destruct (foldl_put_archive l [] Harch) as [-> _]; [|done].
  intros t _. apply not_elem_of_nil.
Qed.

(** X3: merging a third list into the result of a merge is merging the
    second and third lists, in this order, into the first. *)
Theorem merge_compose l1 l2 l3 :
  merge_tweets (merge_tweets l1 l2) l3 = merge_tweets l1 (l2 ++ l3).
Proof.
  unfold merge_tweets at 1. rewrite dict_of_archive by apply merge_is_archive.
  unfold merge_tweets. destruct (merge_dict_wf l1 l2) as [Hk _].
  by rewrite pairs_of_values, foldl_app.
Qed.

(** X4: merging two archives that share no id puts the new one behind the
    existing one. *)
Theorem merge_disjoint existing new :
  is_archive existing → is_archive new →
  (∀ t, t ∈ new → id t ∉ id <$> existing) →
  merge_tweets existing new = existing ++ new.
Proof.
  intros He Hn Hdisj. unfold merge_tweets. rewrite dict_of_archive by done.
  destruct (foldl_put_archive new ((λ t, (id t, t)) <$> existing) Hn) as [-> _].
  - intros t Ht. rewrite <- list_fmap_compose.
    replace (fst ∘ (λ t0 : tweet, (id t0, t0))) with id by done.
    by apply Hdisj.
  - by rewrite <- fmap_app, values_of_archive.
Qed.

Lemma merge_disjoint_witness :
  merge_tweets [mk "9" "a"; mk "7" "b"] [mk "5" "c"]
  = [mk "9" "a"; mk "7" "b"; mk "5" "c"].
Proof.
  apply (merge_disjoint [mk "9" "a"; mk "7" "b"] [mk "5" "c"]).
  - apply (bool_decide_unpack _). vm_compute. reflexivity.
  - apply (bool_decide_unpack _). vm_compute. reflexivity.
  - intros t ->%list_elem_of_singleton. apply (bool_decide_unpack _).
    vm_compute. reflexivity.
Defined.

Lemma put_counting_spec d (n : nat) t :
  NoDup d.*1 →
  ∃ n', put_counting (d, n) t = (put d t, n')
        ∧ (length (put d t) + n = length d + n')%nat.
Proof.
  intros Hnd. unfold put_counting, put. cbn [fst snd].
  destruct (truthy (id t)); [|by exists n].
  unfold Py.mem. case_bool_decide as Hin; eexists; (split; [done|]).
  - f_equal. rewrite <- !(length_fmap fst), keys_set. unfold add_key.
    by rewrite decide_True.
  - rewrite set_fresh by done. rewrite length_app. cbn. lia.
Qed.

Lemma foldl_put_counting l d (n : nat) :
  NoDup d.*1 →
  ∃ n', foldl put_counting (d, n) l = (foldl put d l, n')
        ∧ (length (foldl put d l) + n = length d + n')%nat.
Proof.
  revert d n. induction l as [|t l IH]; intros d n Hnd; [by exists n|].
  cbn [foldl].
  destruct (put_counting_spec d n t Hnd) as (n1 & -> & Hlen1).
  destruct (IH (put d t) n1) as (n2 & -> & Hlen2); [by apply put_NoDup|].
  exists n2. split; [done | lia].
Qed.

(** X5: the numbers [merge_tweets] logs: the total is the length of the
    list returned, and it is the number of different ids among the
    existing items plus the count of new ones; when the existing list is
    an archive, the line adds up: existing + new = total. *)
Theorem merge_log_adds_up existing new :
  let '(n_existing, new_count, total) := merge_log existing new in
  total = length (merge_tweets existing new)
  ∧ total = (length (merge_tweets existing []) + new_count)%nat
  ∧ (is_archive existing → total = (n_existing + new_count)%nat).
Proof.
  unfold merge_log.
  destruct (foldl_put_counting new (foldl put [] existing) 0%nat)
    as (n & -> & Hlen); [apply foldl_put_NoDup; constructor|].
  assert (length (foldl put (foldl put [] existing) new)
          = length (merge_tweets existing new)) as Htot
    by (unfold merge_tweets, Py.values; by rewrite length_fmap).
  assert (length (foldl put [] existing) = length (merge_tweets existing []))
    as Hex by (unfold merge_tweets, Py.values; by rewrite length_fmap).
  split_and!; [done | lia |].
  intros Harch. rewrite (merge_archive_nil _ Harch) in Hex. lia.
Qed.

Lemma merge_log_adds_up_witness :
  merge_log [mk "9" "a"; mk "7" "b"] [mk "7" "c"; mk "5" "d"; mk "5" "e"]
  = (2%nat, 1%nat, 3%nat).
Proof.
  pose proof (merge_log_adds_up [mk "9" "a"; mk "7" "b"]
                [mk "7" "c"; mk "5" "d"; mk "5" "e"]) as H.
  destruct (merge_log _ _) as [[a b] c] eqn:Hlog. destruct H as (H1 & _ & H3).
  assert (a = 2%nat) as -> by (vm_compute in Hlog; congruence).
  rewrite H3 in H1 |- *.
  - vm_compute in H1. assert (b = 1%nat) as -> by lia. reflexivity.
  - apply (bool_decide_unpack _). vm_compute. reflexivity.
  - apply (bool_decide_unpack _). vm_compute. reflexivity.
Defined.

End MergeMore.

(** ** More on the orchestrator *)

Section OrchestratorMore.
Import PlaywrightScraper XScraper.
Implicit Types (t : tweet) (l : list tweet).

Lemma insert_asc_perm {A} (key : A → N) x (l : list A) :
  Py.insert_asc key x l ≡ₚ x :: l.
Proof.
  induction l as [|y l IH]; [done|]. cbn [Py.insert_asc].
  destruct (key y <? key x)%N; [|done]. rewrite IH. apply perm_swap.
Qed.

Lemma sorted_asc_perm {A} (key : A → N) (l : list A) : Py.sorted_asc key l ≡ₚ l.
Proof.
  induction l as [|x l IH]; [done|]. cbn [Py.sorted_asc foldr].
  fold (Py.sorted_asc key l). by rewrite insert_asc_perm, IH.
Qed.

Lemma insert_asc_sorted {A} (key : A → N) x (l : list A) :
  StronglySorted (λ a b, (key a ≤ key b)%N) l →
  StronglySorted (λ a b, (key a ≤ key b)%N) (Py.insert_asc key x l).
Proof.
  induction 1 as [|y l Hl IH Hy]; cbn [Py.insert_asc].
  - repeat constructor.
  - destruct (N.ltb_spec (key y) (key x)) as [Hlt|Hge].
    + constructor; [done|]. rewrite insert_asc_perm. constructor; [lia | done].
    + constructor; [by constructor|]. constructor; [done|].
      eapply Forall_impl; [exact Hy|]. cbn. intros; lia.
Qed.

Lemma sorted_asc_sorted {A} (key : A → N) (l : list A) :
  StronglySorted (λ a b, (key a ≤ key b)%N) (Py.sorted_asc key l).
Proof.
  induction l as [|x l IH]; [constructor|].
  cbn [Py.sorted_asc foldr]. by apply insert_asc_sorted.
Qed.

Lemma sorted_last_max {A} (key : A → N) (l : list A) x :
  StronglySorted (λ a b, (key a ≤ key b)%N) l → last l = Some x →
  Forall (λ a, (key a ≤ key x)%N) l.
Proof.
  induction 1 as [|y l Hl IH Hy]; [done|]. destruct l as [|z l].
  - intros [= ->]. by repeat constructor.
  - change (last (y :: z :: l)) with (last (z :: l)). intros Hlast.
    specialize (IH Hlast). constructor; [|done].
    apply Forall_cons in Hy as [Hyz _]. apply Forall_cons in IH as [Hzx _]. lia.
Qed.

(** X6: the checkpoint of a non-empty list counts its items and names, as
    oldest and newest, two of its items between whose numeric ids the
    numeric ids of all items lie. *)
Theorem checkpoint_bounds previous all_tweets new_tweets :
  all_tweets ≠ [] →
  let c := make_checkpoint previous all_tweets new_tweets in
  total_tweets c = length all_tweets
  ∧ last_session_tweets c = length new_tweets
  ∧ ∃ oldest newest,
      oldest ∈ all_tweets ∧ newest ∈ all_tweets
      ∧ oldest_tweet_id c = Some (id oldest)
      ∧ oldest_tweet_date c = Some (created_at oldest)
      ∧ newest_tweet_id c = Some (id newest)
      ∧ newest_tweet_date c = Some (created_at newest)
      ∧ ∀ t, t ∈ all_tweets → (id_key oldest ≤ id_key t ≤ id_key newest)%N.
Proof.
  intros Hne. cbn zeta. unfold make_checkpoint.
  cbn [total_tweets last_session_tweets oldest_tweet_id oldest_tweet_date
       newest_tweet_id newest_tweet_date].
  split_and!; [done..|].
  pose proof (sorted_asc_perm id_key all_tweets) as Hperm.
  pose proof (sorted_asc_sorted id_key all_tweets) as Hsort.
  destruct (Py.sorted_asc id_key all_tweets) as [|o rest] eqn:Hs.
  { apply Permutation_nil_l in Hperm. by destruct Hne. }
  destruct (last (o :: rest)) as [n|] eqn:Hlast;
    [|by apply last_None in Hlast].
  exists o, n. cbn [head fmap option_fmap option_map].
  split_and!; try done.
  - rewrite <- Hperm. set_solver.
  - rewrite <- Hperm. by apply last_Some_elem_of.
  - intros t Ht. rewrite <- Hperm in Ht.
    pose proof (sorted_last_max id_key _ n Hsort Hlast) as Hmax.
    rewrite Forall_forall in Hmax. split; [|by apply Hmax].
    apply StronglySorted_inv in Hsort as [_ Hmin].
    apply elem_of_cons in Ht as [->|Ht]; [done|].
    rewrite Forall_forall in Hmin. by apply Hmin.
Qed.

Lemma checkpoint_bounds_witness :
  let c := make_checkpoint None [mk "100" ""; mk "205" ""; mk "17" ""] [] in
  oldest_tweet_id c = Some "17" ∧ newest_tweet_id c = Some "205"
  ∧ total_tweets c = 3%nat.
Proof.
  destruct (checkpoint_bounds None [mk "100" ""; mk "205" ""; mk "17" ""] [])
    as (H1 & _ & _); [done|].
  cbn zeta. split_and!; [reflexivity | reflexivity | exact H1].
Defined.

Lemma sorted_tweets_length l :
  is_archive l → length (CheckpointManager.sorted_tweets l) = length l.
Proof.
  intros Harch. rewrite sorted_tweets_of_archive by done.
  by rewrite sorted_desc_perm.
Qed.

(** X7: when both writes of a call succeed, the checkpoint it leaves is
    backed by the archive it leaves: same number of tweets, same session
    count, same oldest date. *)
Theorem saved_checkpoint_matches_archive cfg env username resume max_tweets w :
  checkpoint_write_ok env = true → archive_write_ok env = true →
  let w' := (scrape_user_tweets cfg env username resume max_tweets w).2 in
  files w' = files w ∧ writes w' = writes w
  ∨ ∃ c a,
      writes w' = writes w ++ [CheckpointWritten c; ArchiveWritten a]
      ∧ checkpoint_file (files w') = Some c
      ∧ tweets_file (files w') = Some a
      ∧ total_tweets c = length (tweets a)
      ∧ tweet_count a = length (tweets a)
      ∧ archive_session_count a = session_count c
      ∧ archive_oldest_tweet_date a = oldest_tweet_date c.
Proof.
  intros Hc Ha.
  destruct (scrape_user_tweets_writes cfg env username resume max_tweets w)
    as [(? & ? & _)|(b & _ & _ & _ & _ & Harch & _ & Hw & Hcp & Har)];
    [by left|].
  right. unfold session_writes in Hw. unfold after_write in Hcp, Har.
  rewrite Hc in Hw, Hcp. rewrite Ha in Hw, Har.
  eexists _, _. split_and!; [exact Hw | exact Hcp | exact Har | | done..].
  cbn. by rewrite sorted_tweets_length.
Qed.

Lemma saved_checkpoint_matches_archive_witness :
  checkpoint_backed (files (three_run true true).2).
Proof.
  destruct (saved_checkpoint_matches_archive default_settings
              (three_env None true true) "user" false None
              fresh_world eq_refl eq_refl)
    as [[_ Hw]|(c & a & _ & Hc & Ha & Hn & _)].
  - exfalso. revert Hw. vm_compute. discriminate.
  - fold (three_run true true) in Hc, Ha. unfold checkpoint_backed.
    rewrite Hc. exists a. split; [exact Ha | exact Hn].
Defined.

(** X8: a call without resume that saves replaces the archive by what
    this session collected, sorted, and counts the session as the first:
    what was archived before and not collected again is no longer in the
    file. *)
Theorem fresh_crawl_replaces_archive cfg env username max_tweets w :
  archive_write_ok env = true →
  let w' := (scrape_user_tweets cfg env username false max_tweets w).2 in
  files w' = files w ∧ writes w' = writes w
  ∨ ∃ b a, browser w' = Some b ∧ tweets_file (files w') = Some a
      ∧ tweets a = Py.sorted_desc id_key (all_tweets b)
      ∧ archive_session_count a = 1.
Proof.
  intros Ha.
  destruct (scrape_user_tweets_writes cfg env username false max_tweets w)
    as [(? & ? & _)|(b & Hb & _ & _ & _ & Harch & _ & _ & _ & Har)];
    [by left|].
  right. unfold after_write in Har. rewrite Ha in Har.
  eexists b, _. split_and!; [done | exact Har | | done].
  cbn [tweets]. by rewrite sorted_tweets_of_archive.
Qed.

Lemma fresh_crawl_replaces_archive_witness :
  ∃ a, tweets_file (files (three_run true true).2) = Some a
       ∧ id <$> tweets a = ["3"; "2"; "1"].
Proof.
  destruct (fresh_crawl_replaces_archive default_settings
              (three_env None true true) "user" None
              fresh_world eq_refl)
    as [[_ Hw]|(b & a & Hb & Ha & Ht & _)].
  - exfalso. revert Hw. vm_compute. discriminate.
  - fold (three_run true true) in Hb, Ha. exists a. split; [exact Ha|].
    rewrite Ht. clear Ha Ht. revert b Hb. vm_compute. by intros b [= <-].
Defined.

Lemma elem_of_add_keys (k : string) xs ks :
  k ∈ foldl add_key ks xs ↔ k ∈ ks ∨ k ∈ xs.
Proof.
  revert ks. induction xs as [|x xs IH]; intros ks; [set_solver|].
  cbn [foldl]. rewrite IH. unfold add_key. case_decide; set_solver.
Qed.

Lemma elem_of_filter_truthy (k : string) (ks : list string) :
  k ∈ List.filter truthy ks ↔ truthy k = true ∧ k ∈ ks.
Proof. rewrite !list_elem_of_In, filter_In. tauto. Qed.

(** The ids of a merge: the ids of both lists. *)
Lemma merge_ids existing new (k : string) :
  k ∈ id <$> CheckpointManager.merge_tweets existing new
  ↔ truthy k = true ∧ (k ∈ id <$> existing ∨ k ∈ id <$> new).
Proof.
  destruct (merge_dict_wf existing new) as [Hk _].
  unfold CheckpointManager.merge_tweets. rewrite keyed_values by done.
  rewrite !keys_foldl_put, !elem_of_add_keys, !elem_of_filter_truthy.
  cbn. set_solver.
Qed.

(** X9: a resume that saves keeps every id of the archive it found and
    adds those this session collected: the archive it writes holds these
    ids and no other, and counts one session more than the checkpoint. *)
Theorem resume_keeps_archive cfg env username max_tweets w cp :
  checkpoint_file (files w) = Some cp → archive_write_ok env = true →
  let w' := (scrape_user_tweets cfg env username true max_tweets w).2 in
  files w' = files w ∧ writes w' = writes w
  ∨ ∃ b a, browser w' = Some b ∧ tweets_file (files w') = Some a
      ∧ archive_session_count a = session_count cp + 1
      ∧ ∀ k, k ∈ id <$> tweets a
             ↔ truthy k = true ∧ k ∈ id <$> load_existing_tweets (files w)
               ∨ k ∈ id <$> all_tweets b.
Proof.
  intros Hcp Ha.
  destruct (scrape_user_tweets_writes cfg env username true max_tweets w)
    as [(? & ? & _)|(b & Hb & Hcons & Hnew & _ & Harch & _ & _ & _ & Har)];
    [by left|].
  right. unfold after_write in Har. rewrite Ha in Har. eexists b, _.
  split_and!; [done | exact Har | by rewrite Hcp |].
  intros k. cbn [tweets]. rewrite sorted_tweets_of_archive by done.
  rewrite sorted_desc_perm. unfold existing_of. rewrite Hcp.
  assert (k ∈ id <$> all_tweets b → truthy k = true) as Htr.
  { intros (t & -> & Ht)%list_elem_of_fmap. by apply (Hnew t Ht). }
  unfold merged. destruct (load_existing_tweets (files w)) as [|x ex] eqn:Hex.
  - set_solver.
  - rewrite merge_ids. tauto.
Qed.

Lemma resume_keeps_archive_witness :
  ∃ a, tweets_file (files resume_run.2) = Some a
       ∧ "10" ∈ id <$> tweets a ∧ "8" ∈ id <$> tweets a
       ∧ archive_session_count a = 2.
Proof.
  destruct (resume_keeps_archive default_settings older_env "user" None
              archived_world _ eq_refl eq_refl)
    as [[_ Hw]|(b & a & Hb & Ha & Hn & Hids)].
  - exfalso. revert Hw. vm_compute. discriminate.
  - fold resume_run in Hb, Ha. exists a. split; [exact Ha|].
    split_and!; [| |exact Hn].
    + apply Hids. left. split; [reflexivity|]. vm_compute. do 3 constructor.
    + apply Hids. right. clear Ha Hn Hids. revert b Hb. vm_compute.
      intros b [= <-]. do 2 constructor.
Defined.

End OrchestratorMore.

(** ** More on the scroll loop *)

Section ScrollMore.
Import PlaywrightScraper.
Implicit Types (s : scraper) (l : loop) (ev : scroll_event).

(** *** The listener *)

Lemma collect_fields s o :
  existing_tweet_ids (collect s o) = existing_tweet_ids s
  ∧ scraped_tweet_ids s ⊆ scraped_tweet_ids (collect s o)
  ∧ all_tweets s `prefix_of` all_tweets (collect s o).
Proof.
  destruct o as [t|]; [|done]. unfold collect.
  repeat case_match; try done. unfold append. cbn.
  split_and!; [done | set_solver | by apply prefix_app_r].
Qed.

Lemma seen_collect s o o' : seen s o → seen (collect s o') o.
Proof.
  destruct o as [t|]; [|done]. cbn.
  destruct (collect_fields s o') as (He & Hs & _).
  unfold not_existing. rewrite He. set_solver.
Qed.

Lemma collect_seen s o : seen (collect s o) o.
Proof.
  destruct o as [t|]; [|done]. unfold collect.
  destruct (truthy (id t)) eqn:Ht; [|by left].
  case_bool_decide as Hs; [|right; left; exact Hs].
  destruct (not_existing (id t) s) eqn:He.
  - right; left. unfold append. cbn. set_solver.
  - right; right. exact He.
Qed.

Lemma collect_of_seen s o : seen s o → collect s o = s.
Proof.
  destruct o as [t|]; [|done]. unfold collect. intros [->|[Hs| ->]]; [done| |].
  - destruct (truthy (id t)); [|done]. by rewrite bool_decide_false by set_solver.
  - by repeat case_match.
Qed.

Lemma listen_of_seen entries s : Forall (seen s) entries → listen entries s = s.
Proof.
  unfold listen. induction 1 as [|o entries Ho _ IH]; [done|].
  cbn [foldl]. by rewrite collect_of_seen.
Qed.

Lemma seen_listen entries s o : seen s o → seen (listen entries s) o.
Proof.
  revert s. unfold listen. induction entries as [|o' entries IH]; intros s Ho;
    [done|].
  cbn [foldl]. by apply IH, seen_collect.
Qed.

Lemma listen_seen entries s : Forall (seen (listen entries s)) entries.
Proof.
  revert s. unfold listen. induction entries as [|o entries IH]; intros s;
    [constructor|].
  cbn [foldl]. constructor; [|apply IH].
  apply (seen_listen entries), collect_seen.
Qed.

(** X11: the listener suppresses what it has handled: entries that
    arrive again, in any order and number, after the entries of which
    they are part, leave the scraper as it is. *)
Theorem listener_ignores_repeats (entries again : list (option tweet)) s :
  again ⊆ entries →
  listen again (listen entries s) = listen entries s.
Proof.
  intros Hsub. apply listen_of_seen, Forall_forall. intros o Ho.
  pose proof (listen_seen entries s) as Hseen. rewrite Forall_forall in Hseen.
  apply Hseen, Hsub, Ho.
Qed.

Lemma listener_ignores_repeats_witness :
  listen [item "2"; item "1"; item "2"] (listen [item "1"; None; item "2"] fresh_scraper)
  = listen [item "1"; None; item "2"] fresh_scraper.
Proof.
  apply (listener_ignores_repeats [item "1"; None; item "2"]
           [item "2"; item "1"; item "2"] fresh_scraper).
  intros o Ho. set_solver.
Defined.

(** *** The passes *)

Section Passes.
Context (c : config) (resume_from_tweet_id : option string)
        (existing : gset string).

Lemma progress_check_certified attempts found new_tweets s r s' :
  progress_check c attempts found new_tweets s = (Some r, s') →
  certified c r (Loop attempts found s')
  ∧ r ≠ MaxScrollAttempts ∧ r ≠ SessionLimit.
Proof.
  unfold progress_check. destruct (0 <? new_tweets); [done|].
  set (s1 := set_without_new _ s).
  destruct ((20 <=? attempts) && (len s1 =? 0)) eqn:H1.
  { intros [= <- <-]. apply andb_true_iff in H1 as [Ha Hl].
    apply Z.leb_le in Ha. apply Z.eqb_eq in Hl. cbn.
    split_and!; [|done..]. unfold len in Hl. cbn in Hl.
    by destruct (all_tweets s). }
  destruct (negb found && _) eqn:H2.
  { intros [= <- <-]. apply andb_true_iff in H2 as [Hf Hn].
    apply negb_true_iff in Hf. apply Z.leb_le in Hn. by cbn. }
  destruct (found && _) eqn:H3; [|done].
  intros [= <- <-]. apply andb_true_iff in H3 as [Hf Hn].
  apply Z.leb_le in Hn. by cbn.
Qed.

Lemma tail_checks_certified attempts found ev s r l' :
  tail_checks attempts found ev s = Break r l' →
  certified c r l' ∧ r ≠ MaxScrollAttempts ∧ r ≠ SessionLimit.
Proof.
  unfold tail_checks. destruct (raised (on_bottom ev)); [done|].
  destruct (is_at_bottom ev && _) eqn:Hb.
  { intros [= <- <-]. apply andb_true_iff in Hb as [_ Hb].
    apply Z.ltb_lt in Hb. by cbn. }
  destruct (if bool_decide _ then raised _ else None); [done|].
  destruct (over_600 ev && _) eqn:Ht; [|done].
  intros [= <- <-]. apply andb_true_iff in Ht as [_ Ht].
  apply Z.eqb_eq in Ht. cbn. split_and!; [|done..].
  unfold len in Ht. by destruct (all_tweets _).
Qed.

Lemma body_certified ev l r l' :
  body c resume_from_tweet_id existing ev l = Break r l' →
  certified c r l' ∧ r ≠ MaxScrollAttempts.
Proof.
  intros Hb. destruct (decide (r = SessionLimit)) as [->|Hr].
  { apply body_session_limit in Hb as (? & ? & _). by cbn. }
  revert Hb. unfold body. destruct (raised (on_scroll ev)); [done|].
  destruct (overlap_check _ _ _ _ _ _) as [[found new_tweets] s2].
  destruct (progress_check _ _ _ _ _) as [[r'|] s3] eqn:Hp.
  - intros [= <- <-]. by apply progress_check_certified in Hp as (? & ? & _).
  - destruct (found && limit_reached s3); [by intros [= <- _]|].
    intros Ht. by apply tail_checks_certified in Ht as (? & ? & _).
Qed.

(** The count of passes and the counter of passes without new tweets. *)
Lemma body_counts ev l :
  let l' := final (body c resume_from_tweet_id existing ev l) in
  scroll_attempts l' = scroll_attempts l + 1
  ∧ (0 ≤ scroll_attempts_without_new (self l) ≤ scroll_attempts l →
     0 ≤ scroll_attempts_without_new (self l') ≤ scroll_attempts l').
Proof.
  unfold body.
  pose proof (listen_counter (arrivals (on_scroll ev)) (self l)) as Hc1.
  set (s1 := listen (arrivals (on_scroll ev)) (self l)) in *.
  destruct (raised (on_scroll ev)); [cbn; split; [done | lia]|].
  assert (∀ found n s2,
    overlap_check c resume_from_tweet_id existing (resume_point_found l)
      (len s1 - len (self l)) s1 = (found, n, s2) →
    scroll_attempts_without_new s2 = scroll_attempts_without_new s1
    ∨ scroll_attempts_without_new s2 = 0) as Hov.
  { intros found n s2. unfold overlap_check.
    repeat case_match; intros [= <- <- <-]; cbn; auto. }
  destruct (overlap_check _ _ _ _ _ _) as [[found new_tweets] s2].
  specialize (Hov _ _ _ eq_refl).
  assert (∀ o s3, progress_check c (scroll_attempts l + 1) found new_tweets s2
                  = (o, s3) →
    scroll_attempts_without_new s3 = 0
    ∨ scroll_attempts_without_new s3 = scroll_attempts_without_new s2 + 1) as Hp.
  { intros o s3. unfold progress_check.
    repeat case_match; intros [= <- <-]; cbn; auto. }
  destruct (progress_check _ _ _ _ _) as [[r|] s3]; specialize (Hp _ _ eq_refl).
  { cbn. split; [done | lia]. }
  destruct (found && limit_reached s3); [cbn; split; [done | lia]|].
  assert (scroll_attempts_without_new
            (self (final (tail_checks (scroll_attempts l + 1) found ev s3)))
          = scroll_attempts_without_new s3) as Ht.
  { unfold tail_checks.
    repeat case_match; cbn [final self]; by rewrite ?listen_counter. }
  destruct (tail_checks_final (scroll_attempts l + 1) found ev s3) as (Ha & _).
  split; [done | lia].
Qed.

Lemma while_counts passes env l :
  let r := while c resume_from_tweet_id existing passes env l in
  scroll_attempts l ≤ scroll_attempts (final r) ≤ scroll_attempts l + Z.of_nat passes
  ∧ (0 ≤ scroll_attempts_without_new (self l) ≤ scroll_attempts l →
     0 ≤ scroll_attempts_without_new (self (final r)) ≤ scroll_attempts (final r))
  ∧ ∀ l', r = Break MaxScrollAttempts l' →
          scroll_attempts l' = scroll_attempts l + Z.of_nat passes.
Proof.
  revert l. induction passes as [|passes IH]; intros l.
  - cbv zeta. cbn [while final].
    split; [lia|]. split; [auto|]. intros l' [= <-]. lia.
  - cbv zeta. cbn [while].
    pose proof (body_counts (env (scroll_attempts l + 1)) l) as [Ha Hc].
    destruct (body _ _ _ _ _) as [l1|r l1|e l1] eqn:Hb; cbn [final] in *.
    + destruct (IH l1) as (H1 & H2 & H3).
      split; [lia|]. split; [auto|].
      intros l' Hl'. rewrite (H3 l' Hl'). lia.
    + split; [lia|]. split; [done|]. intros l' [= -> _].
      by apply body_certified in Hb as [_ ?].
    + split; [lia|]. by split.
Qed.

Lemma while_certified passes env l r l' :
  while c resume_from_tweet_id existing passes env l = Break r l' →
  r ≠ MaxScrollAttempts → certified c r l'.
Proof.
  revert l. induction passes as [|passes IH]; intros l.
  - by intros [= <- _].
  - cbn [while].
    destruct (body _ _ _ _ _) as [l1|r1 l1|e l1] eqn:Hb; [apply IH| |done].
    intros [= -> ->] _. by apply body_certified in Hb as [? _].
Qed.

(** X12: the loop makes at most [max_scroll_attempts] passes, and the
    counter of passes without new tweets stays between 0 and the count of
    passes; when the loop stops, the state it leaves shows why: the two
    stops that blame the extractor leave an empty buffer, so no collected
    tweet is lost to them. *)
Theorem scroll_stops_certified env s :
  let r := _scroll_timeline c resume_from_tweet_id existing env s in
  0 ≤ scroll_attempts (final r) ≤ Z.max 0 (max_scroll_attempts c)
  ∧ 0 ≤ scroll_attempts_without_new (self (final r)) ≤ scroll_attempts (final r)
  ∧ match r with
    | Break reason l => certified c reason l
    | Raise _ _ => True
    | Next _ => False
    end.
Proof.
  unfold _scroll_timeline. set (l0 := Loop 0 _ _).
  destruct (while_counts (Z.to_nat (max_scroll_attempts c)) env l0)
    as (H1 & H2 & H3).
  cbn [scroll_attempts self l0 set_without_new scroll_attempts_without_new] in *.
  split; [lia|]. split; [apply H2; lia|].
  destruct (while _ _ _ _ _ l0) as [l|r l|e l] eqn:Hw;
    [by apply while_not_next in Hw | | done].
  destruct (decide (r = MaxScrollAttempts)) as [->|Hr].
  - cbn. rewrite (H3 l eq_refl). lia.
  - by eapply while_certified.
Qed.

(** A pass that starts with the resume point found. *)
Lemma body_found ev l :
  resume_point_found l = true →
  let l' := final (body c resume_from_tweet_id existing ev l) in
  resume_point_found l' = true ∧ log (self l') = log (self l)
  ∧ all_tweets (self l) `prefix_of` all_tweets (self l').
Proof.
  intros Hf. unfold body. rewrite Hf.
  assert (∀ entries s, all_tweets s `prefix_of` all_tweets (listen entries s))
    as Hpre.
  { intros entries. unfold listen. induction entries as [|o entries IH];
      intros s; [done|]. cbn [foldl]. etrans; [|apply IH].
    by destruct (collect_fields s o) as (_ & _ & ?). }
  set (s1 := listen (arrivals (on_scroll ev)) (self l)).
  assert (log s1 = log (self l)) as Hlog by apply listen_log.
  destruct (raised (on_scroll ev)); [cbn; split_and!; [done..|apply Hpre]|].
  rewrite overlap_check_found by done.
  pose proof (progress_check_state c (scroll_attempts l + 1) true
                (len s1 - len (self l)) s1) as (Hbuf & Hlog' & _).
  destruct (progress_check _ _ _ _ _) as [[r|] s3]; cbn [snd] in *.
  { cbn. split_and!; [done | congruence |]. rewrite Hbuf. apply Hpre. }
  cbn [andb].
  destruct (limit_reached s3).
  { cbn. split_and!; [done | congruence |]. rewrite Hbuf. apply Hpre. }
  destruct (tail_checks_final (scroll_attempts l + 1) true ev s3) as (_ & ? & Hl).
  split_and!; [done | congruence |].
  etrans; [apply (Hpre (arrivals (on_scroll ev)))|]. fold s1. rewrite <- Hbuf.
  unfold tail_checks.
  repeat case_match; cbn [final self]; try done;
    repeat (etrans; [|apply Hpre]); done.
Qed.

Lemma while_found passes env l :
  resume_point_found l = true →
  let l' := final (while c resume_from_tweet_id existing passes env l) in
  resume_point_found l' = true ∧ log (self l') = log (self l)
  ∧ all_tweets (self l) `prefix_of` all_tweets (self l').
Proof.
  revert l. induction passes as [|passes IH]; intros l Hf; [done|].
  cbn [while].
  pose proof (body_found (env (scroll_attempts l + 1)) l Hf) as (H1 & H2 & H3).
  destruct (body _ _ _ _ _) as [l1|r l1|e l1]; cbn [final] in *; [|done..].
  destruct (IH l1 H1) as (? & ? & ?).
  split_and!; [done | congruence | by etrans].
Qed.

(** X13: a session without a resume id never drops what it collected:
    the buffer the loop leaves starts with the buffer it found, the
    overlap line is not logged, and the resume point counts as found. *)
Theorem fresh_session_keeps_buffer env s :
  opt_truthy resume_from_tweet_id = false →
  let l := final (_scroll_timeline c resume_from_tweet_id existing env s) in
  all_tweets s `prefix_of` all_tweets (self l)
  ∧ log (self l) = log s ∧ resume_point_found l = true.
Proof.
  intros Hr. unfold _scroll_timeline. rewrite Hr. cbn [negb].
  destruct (while_found (Z.to_nat (max_scroll_attempts c)) env
              (Loop 0 true (set_without_new 0 s)) eq_refl) as (? & ? & ?).
  by split_and!.
Qed.

(** A pass logs the overlap line at most once, and only by confirming the
    resume point. *)
Lemma body_log ev l :
  let l' := final (body c resume_from_tweet_id existing ev l) in
  log (self l') = log (self l)
  ∨ resume_point_found l' = true
    ∧ ∃ n k, log (self l') = log (self l) ++ [FoundOverlapZone n k].
Proof.
  destruct (resume_point_found l) eqn:Hf.
  { left. by apply body_found. }
  unfold body. rewrite Hf.
  set (s1 := listen (arrivals (on_scroll ev)) (self l)).
  assert (log s1 = log (self l)) as Hlog by apply listen_log.
  destruct (raised (on_scroll ev)); [by left|].
  assert (∀ found n s2,
    overlap_check c resume_from_tweet_id existing false
      (len s1 - len (self l)) s1 = (found, n, s2) →
    log s2 = log s1
    ∨ found = true ∧ ∃ m k, log s2 = log s1 ++ [FoundOverlapZone m k]) as Hov.
  { intros found n s2. unfold overlap_check.
    repeat case_match; intros [= <- <- <-]; cbn; eauto. }
  destruct (overlap_check _ _ _ _ _ _) as [[found new_tweets] s2].
  specialize (Hov _ _ _ eq_refl). rewrite Hlog in Hov.
  pose proof (progress_check_state c (scroll_attempts l + 1) found new_tweets s2)
    as (_ & Hlog' & _).
  assert (∀ l', resume_point_found l' = found → log (self l') = log s2 →
    log (self l') = log (self l)
    ∨ resume_point_found l' = true
      ∧ ∃ n k, log (self l') = log (self l) ++ [FoundOverlapZone n k]) as Hend.
  { intros l' Hf' Hl'. rewrite Hf', Hl'. exact Hov. }
  destruct (progress_check _ _ _ _ _) as [[r|] s3]; cbn [snd] in Hlog'.
  { apply Hend; cbn; [done | congruence]. }
  destruct (found && limit_reached s3).
  { apply Hend; cbn; [done | congruence]. }
  destruct (tail_checks_final (scroll_attempts l + 1) found ev s3) as (_ & ? & ?).
  apply Hend; [done | congruence].
Qed.

(** X14: in one run of the loop the buffer is cleared for an overlap at
    most once: the overlap line is logged once or not at all, and if it is
    logged the resume point is confirmed. *)
Theorem overlap_clear_at_most_once env s :
  let l := final (_scroll_timeline c resume_from_tweet_id existing env s) in
  log (self l) = log s
  ∨ resume_point_found l = true
    ∧ ∃ n k, log (self l) = log s ++ [FoundOverlapZone n k].
Proof.
  unfold _scroll_timeline.
  set (l0 := Loop 0 _ (set_without_new 0 s)).
  change (log s) with (log (self l0)). generalize l0. clear l0.
  induction (Z.to_nat (max_scroll_attempts c)) as [|passes IH]; intros l;
    [by left|].
  cbn [while].
  pose proof (body_log (env (scroll_attempts l + 1)) l) as Hb.
  destruct (body _ _ _ _ _) as [l1|r l1|e l1]; cbn [final] in *; [|done..].
  destruct Hb as [<-|(Hf & n & k & Hlog)]; [apply IH|].
  right. destruct (while_found passes env l1 Hf) as (? & -> & _).
  split; [done|]. by exists n, k.
Qed.

(** X15: a resume session (threshold at least 1, the loop counting
    overlaps in the set the listener filters with) never stops for the
    session limit nor for the configured number of passes without new
    tweets. *)
Theorem resume_ignores_limit env s :
  1 ≤ overlap_threshold c → opt_truthy resume_from_tweet_id = true →
  in_session s → existing_tweet_ids s = Some existing →
  ∀ l, _scroll_timeline c resume_from_tweet_id existing env s ≠ Break SessionLimit l
       ∧ _scroll_timeline c resume_from_tweet_id existing env s ≠ Break NoNewTweets l.
Proof.
  intros Hth Hr Hs He l.
  pose proof (resume_never_confirmed c resume_from_tweet_id existing env s
                Hth Hr Hs He) as [Hf _].
  split; intros Heq; rewrite Heq in Hf; cbn in Hf;
    apply while_certified in Heq as [Hc _]; congruence.
Qed.

End Passes.

Lemma resume_ignores_limit_witness :
  _scroll_timeline overlap_config (Some "1") overlap_existing overlap_feed
    overlap_start
  ≠ Break SessionLimit
      (final (_scroll_timeline overlap_config (Some "1") overlap_existing
                overlap_feed overlap_start)).
Proof.
  apply (resume_ignores_limit overlap_config (Some "1") overlap_existing
           overlap_feed overlap_start).
  - cbn. lia.
  - reflexivity.
  - exists fresh_scraper, None, (Some overlap_existing). apply reach_refl.
  - reflexivity.
Defined.

Lemma fresh_session_keeps_buffer_witness :
  all_tweets burst_start
  `prefix_of` all_tweets (self (final (_scroll_timeline overlap_config None ∅
                                         burst_feed burst_start))).
Proof.
  by apply (fresh_session_keeps_buffer overlap_config None ∅ burst_feed burst_start).
Defined.

End ScrollMore.

(** ** The retry decorator *)

Section RetryProperties.
Import Decorators.
Context {V E F : Type} (exceptions : E → bool) (mul : F → F → F).
Context (f : nat → attempt V E) (max_retries : Z) (backoff : F).

Local Notation "'run'" :=
  (attempts exceptions mul (traced f) record_sleep max_retries backoff).

(** After [k] attempts that fail, each followed by its sleep. *)
Lemma attempts_failed k n a d last c sl :
  (∀ i, (i < k)%nat → fails exceptions f (a + i)) →
  Z.of_nat (a + k) ≤ max_retries →
  ∃ d',
    run (k + n)%nat a d last (c, sl)
    = run n (a + k)%nat d'
        (match k with O => last | S k' => raised_by f (a + k') end)
        ((c + k)%nat, sl ++ delays mul backoff k d).
Proof.
  revert a d last c sl. induction k as [|k IH]; intros a d last c sl Hf Hk.
  - exists d. cbn [delays]. by rewrite !Nat.add_0_r, app_nil_r.
  - destruct (Hf 0%nat) as (e & He & Hc); [lia|]. rewrite Nat.add_0_r in He.
    change (S k + n)%nat with (S (k + n)). cbn [attempts traced fst snd].
    rewrite He, Hc. destruct (Z.ltb_spec (Z.of_nat a) max_retries); [|lia].
    change (record_sleep a d (S c, sl)) with (S c, sl ++ [d]).
    destruct (IH (S a) (mul d backoff) (Some e) (S c) (sl ++ [d])) as (d' & ->).
    { intros i Hi. replace (S a + i)%nat with (a + S i)%nat by lia.
      apply Hf. lia. }
    { lia. }
    exists d'. cbn [delays].
    replace (S a + k)%nat with (a + S k)%nat by lia.
    replace (S c + k)%nat with (c + S k)%nat by lia.
    rewrite <- app_assoc. cbn [app]. f_equal.
    destruct k as [|k].
    + unfold raised_by. by rewrite Nat.add_0_r, He.
    + by replace (S a + k)%nat with (a + S k)%nat by lia.
Qed.

Lemma delays_length k d : length (delays mul backoff k d) = k.
Proof. revert d. induction k as [|k IH]; intros d; cbn; [done | by rewrite IH]. Qed.

(** X16: the first attempt that does not raise a caught exception
    decides: if the attempts before the [k]-th fail and [k] is within
    [max_retries], the wrapper returns what the [k]-th returns, or raises
    what it raises, after [k + 1] calls and [k] sleeps of [delay],
    [delay * backoff], ... *)
Theorem retry_first_decides delay k :
  (∀ i, (i < k)%nat → fails exceptions f i) →
  Z.of_nat k ≤ max_retries → ¬ fails exceptions f k →
  retry_traced exceptions mul f max_retries delay backoff
  = (match f k with Returned v => Ok v | Raised e => Err e end,
     (S k, delays mul backoff k delay)).
Proof.
  intros Hf Hk Hnot. unfold retry_traced, retry_on_network_error.
  replace (Z.to_nat (max_retries + 1))
    with (k + S (Z.to_nat max_retries - k))%nat by lia.
  destruct (attempts_failed k (S (Z.to_nat max_retries - k)) 0 delay None 0 []
              Hf) as (d' & ->); [lia|].
  cbn [attempts traced fst snd Nat.add app].
  destruct (f k) as [v|e] eqn:Hfk; [done|].
  destruct (exceptions e) eqn:He; [|done].
  destruct Hnot. by exists e.
Qed.

(** X17: when every attempt fails, the wrapper calls the function
    [max_retries + 1] times, sleeps between the calls and not after the
    last, and raises the exception of the last call. *)
Theorem retry_exhausted delay :
  0 ≤ max_retries →
  (∀ i, Z.of_nat i ≤ max_retries → fails exceptions f i) →
  ∃ e, f (Z.to_nat max_retries) = Raised e
       ∧ retry_traced exceptions mul f max_retries delay backoff
         = (Err e, (S (Z.to_nat max_retries),
                    delays mul backoff (Z.to_nat max_retries) delay)).
Proof.
  intros Hm Hf. unfold retry_traced, retry_on_network_error.
  set (k := Z.to_nat max_retries).
  replace (Z.to_nat (max_retries + 1)) with (k + 1)%nat by lia.
  destruct (attempts_failed k 1 0 delay None 0 []) as (d' & ->).
  { intros i Hi. apply Hf. lia. }
  { lia. }
  destruct (Hf k) as (e & He & Hc); [lia|]. exists e. split; [done|].
  cbn [attempts traced fst snd Nat.add app]. rewrite He, Hc.
  by destruct (Z.ltb_spec (Z.of_nat k) max_retries); [lia|].
Qed.

Lemma attempts_bounds n a d last c sl :
  Z.of_nat (a + n) = max_retries + 1 ∨ n = 0%nat →
  ∃ j, (run n a d last (c, sl)).2.2 = sl ++ delays mul backoff j d
       ∧ (c ≤ (run n a d last (c, sl)).2.1 ≤ c + n)%nat
       ∧ (c + j ≤ (run n a d last (c, sl)).2.1)%nat
       ∧ (n ≠ 0%nat → (c + j < (run n a d last (c, sl)).2.1)%nat)
       ∧ ((run n a d last (c, sl)).1 = NoAttempt ↔ n = 0%nat ∧ last = None).
Proof.
  revert a d last c sl. induction n as [|n IH]; intros a d last c sl Hn.
  - exists 0%nat. cbn. rewrite app_nil_r. split_and!; [done | lia.. | ].
    destruct last; naive_solver.
  - cbn [attempts traced fst snd].
    destruct (f a) as [v|e].
    { exists 0%nat. cbn. rewrite app_nil_r. split_and!; [done | lia.. |].
      naive_solver. }
    destruct (exceptions e).
    2:{ exists 0%nat. cbn. rewrite app_nil_r. split_and!; [done | lia.. |].
        naive_solver. }
    destruct (Z.ltb_spec (Z.of_nat a) max_retries).
    + change (record_sleep a d (S c, sl)) with (S c, sl ++ [d]).
      destruct (IH (S a) (mul d backoff) (Some e) (S c) (sl ++ [d]))
        as (j & -> & H1 & H2 & H3 & H4); [lia|].
      exists (S j). cbn [delays]. rewrite <- app_assoc.
      split_and!; [done | lia.. | |].
      * intros _. assert (n ≠ 0%nat) as Hn' by lia. specialize (H3 Hn'). lia.
      * rewrite H4. naive_solver.
    + destruct (IH (S a) d (Some e) (S c) sl) as (j & -> & H1 & H2 & H3 & H4);
        [lia|].
      assert (n = 0%nat) as -> by lia.
      exists j. split_and!; [done | lia.. | |].
      * intros _. lia.
      * rewrite H4. naive_solver.
Qed.

(** X18: whatever the function does, the wrapper calls it at most
    [max_retries + 1] times and sleeps fewer times than it calls; the
    sleeps are [delay], [delay * backoff], ...; and it ends in its own
    [RuntimeError] exactly if [max_retries] is negative, when it does not
    call the function at all. *)
Theorem retry_bounds delay :
  let r := retry_traced exceptions mul f max_retries delay backoff in
  Z.of_nat r.2.1 ≤ Z.max 0 (max_retries + 1)
  ∧ (length r.2.2 ≤ r.2.1 - 1)%nat
  ∧ r.2.2 = delays mul backoff (length r.2.2) delay
  ∧ (r.1 = NoAttempt ↔ max_retries < 0).
Proof.
  cbv zeta. unfold retry_traced, retry_on_network_error.
  destruct (attempts_bounds (Z.to_nat (max_retries + 1)) 0 delay None 0 [])
    as (j & Hs & H1 & H2 & H3 & H4); [lia|].
  rewrite Hs. cbn [app]. rewrite delays_length.
  split_and!; [lia | | done |].
  - destruct (decide (Z.to_nat (max_retries + 1) = 0%nat)) as [Hz|Hz]; [lia|].
    specialize (H3 Hz). lia.
  - rewrite H4. split; [intros [? _]; lia | intros; split; [lia | done]].
Qed.

End RetryProperties.

(** X16 and X17 at a function that fails twice and then returns, and at
    one that always fails. *)
Lemma retry_first_decides_witness :
  Decorators.retry_traced (λ _ : string, true) Z.mul
    (λ k, if (k <? 2)%nat then Decorators.Raised "timeout"
          else Decorators.Returned 7) 3 10 2
  = (Decorators.Ok 7, (3%nat, [10; 20])).
Proof.
  apply (retry_first_decides (λ _ : string, true) Z.mul
           (λ k, if (k <? 2)%nat then Decorators.Raised "timeout"
                 else Decorators.Returned 7) 3 2 10 2).
  - intros i Hi. exists "timeout". split; [|done].
    by destruct i as [|[|i]]; [..|lia].
  - lia.
  - intros (e & He & _). cbn in He. discriminate.
Defined.

Lemma retry_exhausted_witness :
  ∃ e, (λ _ : nat, @Decorators.Raised Z string "timeout") (Z.to_nat 3)
       = Decorators.Raised e
       ∧ Decorators.retry_traced (λ _ : string, true) Z.mul
           (λ _ : nat, @Decorators.Raised Z string "timeout") 3 10 2
         = (Decorators.Err e, (4%nat, [10; 20; 40])).
Proof.
  apply (retry_exhausted (λ _ : string, true) Z.mul
           (λ _ : nat, @Decorators.Raised Z string "timeout") 3 2 10).
  - lia.
  - intros i _. by exists "timeout".
Defined.

(** ** The search sessions *)

Section SearchProperties.
Import PlaywrightScraper Decorators PlaywrightSearch.

Lemma reach_navigate s0 env k s :
  reach s0 s → reach s0 (navigate env k s).2.
Proof.
  intros Hr. unfold navigate. destruct (page s); cbn [negb]; [|done].
  destruct (raised (on_attempt env k)); by apply reach_listen.
Qed.

Lemma reach_navigate_with_retry s0 env s :
  reach s0 s → reach s0 (_navigate_with_retry env s).2.
Proof.
  unfold _navigate_with_retry, retry_on_network_error.
  generalize (Z.to_nat (3 + 1)) 0%nat 10 (@None string).
  intros n. revert s. induction n as [|n IH]; intros s a d last Hr; [done|].
  cbn [attempts]. pose proof (reach_navigate s0 env a s Hr) as Hn.
  destruct (navigate env a s) as [[v|e] s1]; cbn [snd] in *; [done|].
  destruct (Z.of_nat a <? 3); apply IH; [by apply reach_listen | done].
Qed.

(** What a search returns, and the state it leaves. *)
Lemma search_session c env label query existing s0 s :
  reach s0 s →
  match search c env label query existing s with
  | (Raises _, _) => False
  | (Returns r, s') =>
      reach s0 s'
      ∧ match r with
        | Scraped _ ts n => (ts = all_tweets s' ∨ ts = []) ∧ n = length ts
        | ScrapeError _ ts => ts = all_tweets s'
        end
  end.
Proof.
  intros Hr. unfold search. destruct query as [q|]; [|done].
  pose proof (reach_navigate_with_retry s0 (navigation_env env) s Hr) as H1.
  destruct (_navigate_with_retry _ s) as [[v|e|] s1]; cbn [snd] in H1;
    [|done..].
  unfold _wait_for_tweets. destruct (page s1); cbn [negb]; [|done].
  pose proof (reach_listen s0 s1 (arrivals (on_wait env)) H1) as H2.
  case_bool_decide; [|by auto].
  match goal with
  | |- context [_scroll_timeline ?c ?r ?e ?env ?s] =>
      pose proof (reach_scroll_timeline c r e env s) as H4;
      destruct (_scroll_timeline c r e env s) as [l|r' l|e' l]
  end; cbn [final] in H4; (split; [by eapply reach_trans | by auto]).
Qed.

Lemma prepared_archive max_tweets e s s' :
  reach (prepare max_tweets (Some e) s) s' →
  in_session s' ∧ is_archive (all_tweets s')
  ∧ ∀ t, t ∈ all_tweets s' → id t ∉ e.
Proof.
  intros Hr.
  assert (in_session s') as Hs by (by exists s, max_tweets, (Some e)).
  split; [done|].
  pose proof (in_session_only_new s' Hs) as Hn.
  split; [by apply session_state_is_archive; [apply in_session_consistent|]|].
  intros t Ht. destruct (Hn t Ht) as [_ He]. apply He.
  by rewrite (proj1 (reach_fields _ _ Hr)).
Qed.

Lemma page_listen entries s : page (listen entries s) = page s.
Proof. by destruct (reach_fields s _ (reach_listen s s entries (reach_refl s))) as (_ & _ & ?). Qed.

Lemma search_prepared c env label query existing max_tweets e s :
  match search c env label query existing (prepare max_tweets (Some e) s) with
  | (Raises _, _) => False
  | (Returns r, s') =>
      is_archive (tweets_of r) ∧ (∀ t, t ∈ tweets_of r → id t ∉ e)
      ∧ (tweets_of r = all_tweets s' ∨ tweets_of r = [])
  end.
Proof.
  pose proof (search_session c env label query existing _ _
                (reach_refl (prepare max_tweets (Some e) s))) as Hs.
  destruct (search _ _ _ _ _ _) as [[r|err] s']; [|done].
  destruct Hs as [Hr Hts].
  destruct (prepared_archive _ _ _ _ Hr) as (_ & Ha & He).
  assert (is_archive [] ∧ ∀ t : tweet, t ∈ [] → id t ∉ e) as [Hnil Hnil'].
  { split; [split; constructor|]. intros t Ht. by apply not_elem_of_nil in Ht. }
  destruct r as [u ts n|msg ts]; cbn [tweets_of].
  - destruct Hts as [[->| ->] _]; auto.
  - rewrite Hts. auto.
Qed.

Lemma by_search_session c env username since_date until_date max_tweets e s :
  match scrape_user_tweets_by_search c env username since_date until_date
          max_tweets (Some e) s with
  | (Raises _, s') => s' = s ∧ page s = false
  | (Returns r, s') =>
      is_archive (tweets_of r) ∧ (∀ t, t ∈ tweets_of r → id t ∉ e)
      ∧ (tweets_of r = all_tweets s' ∨ tweets_of r = [])
  end.
Proof.
  unfold scrape_user_tweets_by_search.
  destruct (page s); cbn [negb]; [|done].
  pose proof (search_prepared c env username
                (search_query (Some username) (Some since_date)
                   (Some until_date) None)
                (default ∅ (existing_tweet_ids (prepare max_tweets (Some e) s)))
                max_tweets e s) as Hsearch.
  by destruct (search _ _ _ _ _ _) as [[r|err] s'].
Qed.

(** X19: what a search session returns, also in its error dictionary:
    tweets with pairwise different, non-empty ids, none of them among the
    ids given as existing; it is the buffer of the scraper, or nothing
    when no tweet showed on the page. *)
Theorem search_returns_only_new c env :
  (∀ username since_date until_date max_tweets e s,
     match scrape_user_tweets_by_search c env username since_date until_date
             max_tweets (Some e) s with
     | (Raises _, s') => s' = s ∧ page s = false
     | (Returns r, s') =>
         is_archive (tweets_of r) ∧ (∀ t, t ∈ tweets_of r → id t ∉ e)
         ∧ (tweets_of r = all_tweets s' ∨ tweets_of r = [])
     end)
  ∧ (∀ query max_tweets s,
       match search_tweets c env query max_tweets s with
       | (Raises _, s') => s' = s ∧ page s = false
       | (Returns r, s') =>
           is_archive (tweets_of r)
           ∧ (tweets_of r = all_tweets s' ∨ tweets_of r = [])
       end).
Proof.
  pose proof (search_prepared c env) as Hsearch.
  split.
  - intros username since_date until_date max_tweets e s.
    apply by_search_session.
  - intros query max_tweets s. unfold search_tweets.
    destruct (page s); cbn [negb]; [|done].
    specialize (Hsearch query (search_query None None None (Some query)) ∅
                  max_tweets ∅ s).
    destruct (search _ _ _ _ _ _) as [[r|err] s']; [|done]. naive_solver.
Qed.

(** X20: when the four navigations of a range all fail, the session
    returns the error dictionary with the message of the last failure
    and with the tweets the listener collected during the attempts and
    the three sleeps between them; it neither waits for tweets nor
    scrolls. *)
Theorem search_navigation_gives_up c env username since_date until_date
    max_tweets existing s (e : nat → string) :
  page s = true → truthy username = true →
  (∀ k, (k < 4)%nat → raised (on_attempt (navigation_env env) k) = Some (e k)) →
  let nav := navigation_env env in
  let during k s :=
    listen (on_retry_sleep nav k) (listen (arrivals (on_attempt nav k)) s) in
  let s' :=
    listen (arrivals (on_attempt nav 3))
      (during 2%nat (during 1%nat (during 0%nat
         (prepare max_tweets existing s)))) in
  scrape_user_tweets_by_search c env username since_date until_date
    max_tweets existing s
  = (Returns (ScrapeError ("Navigation failed: " +:+ e 3%nat) (all_tweets s')), s').
Proof.
  intros Hp Hu He. cbv zeta. unfold scrape_user_tweets_by_search.
  rewrite Hp. cbn [negb]. unfold search, search_query.
  change (opt_truthy None) with false. change (opt_truthy (Some username))
    with (truthy username). rewrite Hu. cbn [andb].
  assert (∀ k st, (k < 4)%nat → page st = true →
            navigate (navigation_env env) k st
            = (Raised ("Navigation failed: " +:+ e k),
               listen (arrivals (on_attempt (navigation_env env) k)) st)) as Hnav.
  { intros k st Hk Hst. unfold navigate. rewrite Hst. cbn [negb].
    by rewrite (He k Hk). }
  assert (page (prepare max_tweets existing s) = true) as Hp0 by done.
  unfold _navigate_with_retry, retry_on_network_error.
  change (Z.to_nat (3 + 1)) with 4%nat. cbn [attempts].
  repeat (rewrite Hnav; [|lia|by rewrite ?page_listen]).
  change (Z.of_nat 0 <? 3) with true. change (Z.of_nat 1 <? 3) with true.
  change (Z.of_nat 2 <? 3) with true. change (Z.of_nat 3 <? 3) with false.
  cbv iota. by destruct (opt_truthy (Some since_date) && _).
Qed.

Lemma search_navigation_gives_up_witness :
  scrape_user_tweets_by_search overlap_config unreachable "user"
    "2024-01-01" "2024-02-01" None None fresh_scraper
  = (Returns (ScrapeError "Navigation failed: Timeout 30000ms exceeded"
                [mk "7" ""]),
     Scraper true [mk "7" ""] {["7"]} (Some ∅) None 0 []).
Proof.
  rewrite (search_navigation_gives_up overlap_config unreachable
             "user" "2024-01-01" "2024-02-01" None None fresh_scraper
             (λ _, "Timeout 30000ms exceeded")); [| reflexivity.. |].
  - vm_compute. reflexivity.
  - intros k _. reflexivity.
Defined.

End SearchProperties.

(** ** The historical crawl *)

Section HistoricalProperties.
Import PlaywrightScraper XScraper PlaywrightSearch Historical.

Lemma foldl_add_new ts all ids :
  is_archive ts → (∀ t, t ∈ ts → id t ∉ ids) →
  foldl add_new (all, ids) ts = (all ++ ts, list_to_set (id <$> ts) ∪ ids).
Proof.
  revert all ids. induction ts as [|t ts IH]; intros all ids [Hnd Ht] Hnew.
  - cbn. rewrite app_nil_r. f_equal. set_solver.
  - cbn [foldl]. unfold add_new at 2. cbn [fst snd].
    apply Forall_cons in Ht as [Ht Hts]. rewrite fmap_cons in Hnd.
    apply NoDup_cons in Hnd as [Hnotin Hnd].
    rewrite Ht, bool_decide_eq_true_2 by (apply Hnew; left). cbn [andb].
    rewrite IH; [| done |].
    + rewrite <- app_assoc. cbn. f_equal. set_solver.
    + intros t' Ht'. apply not_elem_of_union. split.
      * intros ?%elem_of_singleton. apply Hnotin. apply list_elem_of_fmap.
        by exists t'.
      * apply Hnew. by right.
Qed.

Lemma adds_up_snoc before out total n :
  adds_up before out total →
  adds_up before (out ++ [Echo n (total + n)]) (total + n).
Proof.
  revert before. induction out as [|[c m] out IH]; intros before; cbn.
  - by intros ->.
  - intros [-> H]. split; [done|]. by apply IH.
Qed.

Lemma by_search_returns cfg env username since_date until_date max_tweets e w :
  match Historical.scrape_user_tweets_by_search cfg env username since_date
          until_date max_tweets (Some e) w with
  | (Returns r, _) =>
      is_archive (tweets_of r) ∧ (∀ t, t ∈ tweets_of r → id t ∉ e)
  | (Raises _, _) => True
  end.
Proof.
  unfold Historical.scrape_user_tweets_by_search.
  destruct (if bool_decide (browser w = None) || negb (logged_in w)
            then login (range_browser_ok env) (range_login_ok env) w
            else (true, w)) as [ready w1].
  destruct ready; cbn [negb]; [|done].
  destruct (browser w1) as [b|]; [|done].
  pose proof (by_search_session (scraping cfg) (range_search env)
                username since_date until_date max_tweets e b) as H.
  destruct (PlaywrightSearch.scrape_user_tweets_by_search _ _ _ _ _ _ _ _)
    as [[r|err] b']; [|done].
  by destruct H as (? & ? & _).
Qed.

Lemma ranges_from_counts cfg env username max_tweets total idx date_ranges
    all ids out w before :
  is_archive all → ids = list_to_set (id <$> all) →
  adds_up before out (length all) →
  match ranges_from cfg env username max_tweets total idx date_ranges
          all ids out w with
  | (Returns (all', ids'), out', _) =>
      is_archive all' ∧ ids' = list_to_set (id <$> all')
      ∧ adds_up before out' (length all')
      ∧ length out' = (length out + length date_ranges)%nat
  | (Raises _, out', _) => ∃ total', adds_up before out' total'
  end.
Proof.
  revert idx all ids out w.
  induction date_ranges as [|[range_start range_end] rest IH];
    intros idx all ids out w Ha Hids Hout.
  - cbn. split_and!; [done.. | lia].
  - cbn [ranges_from].
    pose proof (by_search_returns cfg (env idx) username range_start range_end
                  (Some max_tweets) ids w) as Hr.
    destruct (Historical.scrape_user_tweets_by_search _ _ _ _ _ _ _ _)
      as [[r|err] w1]; [|by exists (length all)].
    destruct Hr as [Hts Hnew].
    rewrite (foldl_add_new _ _ _ Hts Hnew). cbn [fst snd].
    match goal with
    | |- context [ranges_from _ _ _ _ _ _ _ _ _ _ ?w'] =>
        specialize (IH (S idx) (all ++ tweets_of r)
                      (list_to_set (id <$> tweets_of r) ∪ ids)
                      (out ++ [Echo (length (tweets_of r))
                                 (length (all ++ tweets_of r))]) w')
    end.
    destruct (ranges_from _ _ _ _ _ _ _ _ _ _ _) as [[[[all' ids']|err] out'] w'].
    + destruct IH as (? & ? & ? & Hlen).
      * destruct Ha as [Hnd Hall], Hts as [Hnd' Hall'].
        split; [|by apply Forall_app]. rewrite fmap_app.
        apply NoDup_app. split_and!; [done | | done].
        intros x Hx (t & -> & Ht)%list_elem_of_fmap.
        apply (Hnew t Ht). rewrite Hids. by apply elem_of_list_to_set.
      * rewrite fmap_app, list_to_set_app_L, Hids. set_solver.
      * rewrite length_app. by apply adds_up_snoc.
      * rewrite length_app in Hlen. cbn [length] in *.
        split_and!; [done.. | lia].
    + apply IH.
      * destruct Ha as [Hnd Hall], Hts as [Hnd' Hall'].
        split; [|by apply Forall_app]. rewrite fmap_app.
        apply NoDup_app. split_and!; [done | | done].
        intros x Hx (t & -> & Ht)%list_elem_of_fmap.
        apply (Hnew t Ht). rewrite Hids. by apply elem_of_list_to_set.
      * rewrite fmap_app, list_to_set_app_L, Hids. set_solver.
      * rewrite length_app. by apply adds_up_snoc.
Qed.

(** X21: the historical crawl returns tweets with pairwise different,
    non-empty ids, and the set of these ids; no tweet a range returns is
    dropped as a duplicate, since the scraper was given the ids collected
    so far: the totals the command prints are the running sums of the
    counts of the ranges, the last being the number of tweets returned.
    When a range raises, what was printed adds up as well. *)
Theorem historical_counts_add_up cfg env username date_ranges max_tweets w :
  match scrape_date_ranges cfg env username date_ranges max_tweets w with
  | (Returns (all_tweets, existing_tweet_ids), out, _) =>
      is_archive all_tweets
      ∧ existing_tweet_ids = list_to_set (id <$> all_tweets)
      ∧ adds_up 0 out (length all_tweets)
      ∧ length out = length date_ranges
  | (Raises _, out, _) => ∃ total, adds_up 0 out total
  end.
Proof.
  unfold scrape_date_ranges.
  apply (ranges_from_counts cfg env username max_tweets (length date_ranges) 1
           date_ranges [] ∅ [] w 0%nat); [split; constructor | done | done].
Qed.

End HistoricalProperties.

(** ** The date ranges *)

Section DateRanges.
Import PlaywrightScraper DateUtils.

Lemma days_in_month_bounds y m : 28 ≤ days_in_month y m ≤ 31.
Proof. unfold days_in_month. repeat case_match; lia. Qed.

Lemma lt_rank a b : valid a → valid b → (lt a b = true ↔ rank a < rank b).
Proof.
  intros (Hy & Hm & Hd) (Hy' & Hm' & Hd').
  pose proof (days_in_month_bounds (year a) (month a)).
  pose proof (days_in_month_bounds (year b) (month b)).
  unfold lt, rank.
  rewrite orb_true_iff, !andb_true_iff, orb_true_iff, andb_true_iff,
    !Z.ltb_lt, !Z.eqb_eq. lia.
Qed.

Lemma rank_inj a b : valid a → valid b → rank a = rank b → a = b.
Proof.
  intros (Hy & Hm & Hd) (Hy' & Hm' & Hd') Hr.
  pose proof (days_in_month_bounds (year a) (month a)).
  pose proof (days_in_month_bounds (year b) (month b)).
  unfold rank in Hr. destruct a as [y m d], b as [y' m' d']. cbn in *.
  assert (y = y') by lia. assert (m = m') by lia. assert (d = d') by lia.
  by subst.
Qed.

(** A step of the loop: the date it gives is a later date of the
    calendar. *)
Definition advances (step : datetime → outcome datetime) : Prop :=
  ∀ current, valid current → year current < 9999 →
    ∃ next, step current = Returns next ∧ valid next
            ∧ rank current < rank next.

Lemma plus_week_advances : advances plus_week.
Proof.
  intros [y m d] (Hy & Hm & Hd) Hlt. cbn in *. unfold plus_week. cbn.
  pose proof (days_in_month_bounds y m).
  destruct (Z.leb_spec (d + 7) (days_in_month y m)).
  { eexists. split; [done|]. unfold valid, rank. cbn. lia. }
  destruct (Z.eqb_spec m 12) as [->|].
  - destruct (Z.leb_spec (y + 1) 9999); [|lia].
    eexists. split; [done|]. unfold valid, rank. cbn.
    change (days_in_month (y + 1) 1) with 31.
    change (days_in_month y 12) with 31 in *. lia.
  - eexists. split; [done|]. unfold valid, rank. cbn.
    pose proof (days_in_month_bounds y (m + 1)). lia.
Qed.

Lemma first_of_month_spec y m current :
  1 ≤ y ≤ 9999 → 1 ≤ m ≤ 12 → valid current →
  year current * 12 + month current < y * 12 + m →
  ∃ next, first_of_month y m = Returns next ∧ valid next
          ∧ rank current < rank next.
Proof.
  intros Hy Hm (Hy' & Hm' & Hd') Hlt. unfold first_of_month.
  pose proof (days_in_month_bounds (year current) (month current)).
  pose proof (days_in_month_bounds y m).
  destruct (Z.leb_spec y 9999); [|lia].
  eexists. split; [done|]. unfold valid, rank. cbn. lia.
Qed.

Lemma next_month_advances : advances next_month.
Proof.
  intros current Hv Hlt. pose proof Hv as (Hy & Hm & Hd). unfold next_month.
  destruct (Z.eqb_spec (month current) 12);
    apply first_of_month_spec; try done; lia.
Qed.

Lemma next_quarter_advances : advances next_quarter.
Proof.
  intros current Hv Hlt. pose proof Hv as (Hy & Hm & Hd). unfold next_quarter.
  assert (0 ≤ (month current - 1) / 3 ≤ 3
          ∧ month current ≤ ((month current - 1) / 3 + 1) * 3) as [Hq Hq'].
  { Z.div_mod_to_equations. lia. }
  destruct (Z.ltb_spec 12 (((month current - 1) / 3 + 1) * 3 + 1));
    apply first_of_month_spec; try done; lia.
Qed.

Lemma min_spec a b :
  valid a → valid b →
  valid (min a b) ∧ rank (min a b) = Z.min (rank a) (rank b).
Proof.
  intros Ha Hb. unfold min. destruct (lt b a) eqn:Hlt.
  - apply lt_rank in Hlt; [|done..]. split; [done | lia].
  - split; [done|]. destruct (decide (rank b < rank a)) as [Hr|Hr]; [|lia].
    apply lt_rank in Hr; [|done..]. congruence.
Qed.

Lemma chunks_tile step passes current end_ ranges :
  advances step → valid current → valid end_ → year end_ < 9999 →
  rank current ≤ rank end_ → rank end_ - rank current ≤ Z.of_nat passes →
  ∃ more, chunks step passes current end_ ranges = Returns (ranges ++ more)
          ∧ tiles current more end_.
Proof.
  intros Hstep. revert current ranges.
  induction passes as [|passes IH]; intros current ranges Hc He Hy Hle Hp.
  - exists []. cbn. rewrite app_nil_r. split; [done|].
    apply rank_inj; [done..|lia].
  - cbn [chunks]. destruct (lt current end_) eqn:Hlt.
    2:{ exists []. cbn. rewrite app_nil_r. split; [done|].
        apply rank_inj; [done..|].
        destruct (decide (rank current < rank end_)) as [Hr|Hr]; [|lia].
        apply lt_rank in Hr; [|done..]. congruence. }
    apply lt_rank in Hlt; [|done..].
    destruct (Hstep current Hc) as (next & -> & Hn & Hr).
    { destruct Hc as (? & Hm & Hd), He as (? & Hm' & Hd').
      pose proof (days_in_month_bounds (year current) (month current)).
      pose proof (days_in_month_bounds (year end_) (month end_)).
      unfold rank in Hlt. lia. }
    destruct (min_spec next end_ Hn He) as [Hv Hmin].
    destruct (IH (min next end_) (ranges ++ [(current, min next end_)]))
      as (more & -> & Ht); [done.. | lia | lia |].
    exists ((current, min next end_) :: more). rewrite <- app_assoc.
    split; [done|]. cbn. split_and!; [done | | done..].
    apply lt_rank; [done..|lia].
Qed.

(** X22: for two dates of the calendar, the end before the year 9999,
    and one of the three chunk types, [generate_date_ranges] returns
    ranges that lead from the start to the end without gap or overlap,
    none of them empty; when the start is not before the end it returns
    no range. *)
Theorem date_ranges_tile start end_ chunk_type :
  valid start → valid end_ → year end_ < 9999 →
  chunk_type ∈ ["weekly"; "monthly"; "quarterly"] →
  ∃ ranges, generate_date_ranges start end_ chunk_type = Returns ranges
            ∧ if lt start end_ then tiles start ranges end_ else ranges = [].
Proof.
  intros Hs He Hy Hc. unfold generate_date_ranges.
  destruct (lt start end_) eqn:Hlt.
  - apply lt_rank in Hlt; [|done..].
    assert (∀ step, advances step →
              ∃ ranges, chunks step (Z.to_nat (rank end_ - rank start)) start
                          end_ [] = Returns ranges ∧ tiles start ranges end_)
      as Hchunks.
    { intros step Hstep.
      destruct (chunks_tile step (Z.to_nat (rank end_ - rank start)) start end_
                  [] Hstep Hs He Hy) as (more & -> & Ht); [lia.. |].
      by exists more. }
    repeat (apply elem_of_cons in Hc as [->|Hc]); cbn [String.eqb Ascii.eqb];
      [apply Hchunks, plus_week_advances | apply Hchunks, next_month_advances
       | apply Hchunks, next_quarter_advances | by apply not_elem_of_nil in Hc].
  - assert (∀ step, chunks step (Z.to_nat (rank end_ - rank start)) start end_ []
                    = Returns []) as Hnone.
    { intros step. destruct (Z.to_nat _); [done|]. cbn [chunks]. by rewrite Hlt. }
    exists []. split; [|done]. by repeat case_match.
Qed.

(** X22 at the first quarter of a leap year, by months. *)
Lemma date_ranges_tile_witness :
  ∃ ranges, generate_date_ranges (Datetime 2024 1 15) (Datetime 2024 3 10)
              "monthly" = Returns ranges
            ∧ tiles (Datetime 2024 1 15) ranges (Datetime 2024 3 10).
Proof.
  apply (date_ranges_tile (Datetime 2024 1 15) (Datetime 2024 3 10) "monthly").
  - unfold valid. cbn. lia.
  - unfold valid. cbn. lia.
  - cbn. lia.
  - set_solver.
Defined.

End DateRanges.
